(** * run_imdb_queries_to_excel.py: statement splitter and marker extractor

    A shallow embedding of [split_mysql_statements] and
    [extract_setup_and_queries] of [run_imdb_queries_to_excel.py], and the
    properties of the two functions that the specification states.

    Python strings are sequences of Unicode code points: a character is a
    code point in [N], a string a [list N].  The regular expressions of the
    source are embedded one by one as the matcher CPython's backtracking
    [re] engine runs for that pattern; each embedding names its pattern and
    says why the greedy or lazy choice it takes is the one the engine ends
    on. *)

From Stdlib Require Import NArith List String Ascii Bool Lia.
From stdpp Require Import base option list gmap.
Import ListNotations.

Set Default Proof Using "Type".

(** ** Characters and strings *)

Abbreviation char := N.
Abbreviation pystr := (list N).

(** An ASCII literal of the development as a Python string. *)
Definition str (s : string) : pystr :=
  List.map N_of_ascii (list_ascii_of_string s).

Definition LF : char := 10%N.
Definition CR : char := 13%N.
Definition SPACE : char := 32%N.
Definition DQUOTE : char := 34%N.
Definition SQUOTE : char := 39%N.
Definition STAR : char := 42%N.
Definition DASH : char := 45%N.
Definition SLASH : char := 47%N.
Definition SEMI : char := 59%N.
Definition BACKSLASH : char := 92%N.
Definition UNDERSCORE : char := 95%N.
Definition EM_DASH : char := 8212%N.
Definition EN_DASH : char := 8211%N.

Definition in_range (lo hi c : N) : bool := ((lo <=? c) && (c <=? hi))%N.

(** [str.isspace] on one character, which is also the class [\s] of a
    [str] pattern and what [str.strip()] removes. *)
Definition is_space (c : char) : bool :=
  in_range 9 13 c || in_range 28 32 c || (c =? 133)%N || (c =? 160)%N
  || (c =? 5760)%N || in_range 8192 8202 c || (c =? 8232)%N
  || (c =? 8233)%N || (c =? 8239)%N || (c =? 8287)%N || (c =? 12288)%N.

(** The line boundaries of [str.splitlines]. *)
Definition is_linebreak (c : char) : bool :=
  in_range 10 13 c || in_range 28 30 c || (c =? 133)%N
  || (c =? 8232)%N || (c =? 8233)%N.

(** The classes [\d] and [\w] of a [str] pattern follow the Unicode
    character database beyond ASCII: [\d] is the category Nd and [\w] is
    [str.isalnum] or the underscore.  The database is data of the Python
    runtime, not of this program, so the model takes its non-ASCII part as
    a parameter; on ASCII the classes are written out. *)
Class UnicodeData := {
  (** the decimal value of a non-ASCII character of category Nd *)
  uni_decimal : char -> option N;
  (** [str.isalnum] on a non-ASCII character *)
  uni_alnum : char -> bool
}.

(** The database cut down to the Basic Latin block (what [re.ASCII] sees). *)
Definition basic_latin : UnicodeData :=
  {| uni_decimal := fun _ => None; uni_alnum := fun _ => false |}.

Section Classes.
Context {U : UnicodeData}.

Definition is_ascii (c : char) : bool := (c <? 128)%N.

(** The decimal value of a character, for [\d] and for [int]. *)
Definition decimal_value (c : char) : option N :=
  if is_ascii c then
    if in_range 48 57 c then Some (c - 48)%N else None
  else uni_decimal c.

Definition is_digit (c : char) : bool :=
  match decimal_value c with Some _ => true | None => false end.

Definition is_word (c : char) : bool :=
  if is_ascii c then
    in_range 48 57 c || in_range 65 90 c || in_range 97 122 c
    || (c =? UNDERSCORE)%N
  else uni_alnum c.

(** [\b] between the character before the position and the one at it; a
    missing neighbour counts as a non-word character. *)
Definition opt_word (o : option char) : bool :=
  match o with Some c => is_word c | None => false end.

Definition word_boundary (prev next : option char) : bool :=
  xorb (opt_word prev) (opt_word next).

End Classes.

(** A literal letter under [re.IGNORECASE]: [lit] is a lower-case ASCII
    letter; besides its two ASCII cases the engine accepts the characters
    whose lower case is [lit] (the Kelvin sign for k, the dotted capital I
    for i) and its listed equivalents (dotless i for i, long s for s). *)
Definition ci_eq (lit c : char) : bool :=
  (c =? lit)%N || (c + 32 =? lit)%N
  || ((lit =? 115)%N && (c =? 383)%N)
  || ((lit =? 105)%N && ((c =? 304)%N || (c =? 305)%N))
  || ((lit =? 107)%N && (c =? 8490)%N).

(** ** Python string methods *)

(** [s.lstrip(chars)] and [s.rstrip(chars)], the set given as a predicate. *)
Fixpoint lstrip_by (p : char -> bool) (s : pystr) : pystr :=
  match s with
  | c :: r => if p c then lstrip_by p r else s
  | [] => []
  end.

Definition rstrip_by (p : char -> bool) (s : pystr) : pystr :=
  rev (lstrip_by p (rev s)).

(** [s.strip()] *)
Definition strip (s : pystr) : pystr := rstrip_by is_space (lstrip_by is_space s).

(** [s.splitlines()]: the lines without their boundaries; CR LF is one
    boundary, and a boundary at the very end opens no further line. *)
Fixpoint splitlines (s : pystr) : list pystr :=
  match s with
  | [] => []
  | c :: r =>
      if is_linebreak c then
        match r with
        | d :: r' =>
            if (c =? CR)%N && (d =? LF)%N then [] :: splitlines r'
            else [] :: splitlines r
        | [] => [[]]
        end
      else
        match splitlines r with
        | [] => [[c]]
        | l :: ls => (c :: l) :: ls
        end
  end.

(** ['\n'.join(lines)] *)
Fixpoint join_lines (lines : list pystr) : pystr :=
  match lines with
  | [] => []
  | [l] => l
  | l :: ls => l ++ LF :: join_lines ls
  end.

(** [pat in s] *)
Fixpoint starts_with (pat s : pystr) : bool :=
  match pat, s with
  | [], _ => true
  | p :: pat', c :: s' => (c =? p)%N && starts_with pat' s'
  | _ :: _, [] => false
  end.

Fixpoint contains (pat s : pystr) : bool :=
  starts_with pat s ||
  match s with
  | [] => false
  | _ :: r => contains pat r
  end.

(** ** The regular expressions of [split_mysql_statements] *)

(** The length of the shortest text matched by [.*?\*/] at the head of
    [s]: [.] stops at a line feed. *)
Fixpoint close_len (s : pystr) : option nat :=
  match s with
  | [] => None
  | c :: r =>
      if starts_with [STAR; SLASH] s then Some 2
      else if (c =? LF)%N then None
      else option_map S (close_len r)
  end.

(** [re.sub(r'/\*.*?\*/', ' ', l)]: every leftmost, shortest
    [/* ... */] becomes one space.  [skip] counts the characters of the
    match in progress that are still to be passed over. *)
Fixpoint sub_block_comments_from (skip : nat) (l : pystr) : pystr :=
  match l with
  | [] => []
  | c :: r =>
      match skip with
      | S k => sub_block_comments_from k r
      | O =>
          if starts_with [SLASH; STAR] l then
            match close_len (drop 2 l) with
            | Some n => SPACE :: sub_block_comments_from (S n) r
            | None => c :: sub_block_comments_from 0 r
            end
          else c :: sub_block_comments_from 0 r
      end
  end.

Definition sub_block_comments (l : pystr) : pystr :=
  sub_block_comments_from 0 l.

(** What is left of [s] from its first line feed on. *)
Fixpoint eol_tail (s : pystr) : pystr :=
  match s with
  | [] => []
  | c :: r => if (c =? LF)%N then s else eol_tail r
  end.

(** [re.sub(r'--.*$', '', l)]: [.*] runs to the next line feed or the end,
    and [$] (no MULTILINE) holds there only at the end of the string or
    before a line feed that ends it. *)
Fixpoint sub_line_comment (l : pystr) : pystr :=
  match l with
  | [] => []
  | c :: r =>
      if starts_with [DASH; DASH] l then
        match eol_tail r with
        | [] => []
        | [d] => [d]
        | _ :: _ :: _ => c :: sub_line_comment r
        end
      else c :: sub_line_comment r
  end.

(** The text matched by a case-insensitive literal at the head of [s],
    with what follows it. *)
Fixpoint match_ci (lit s : pystr) : option (pystr * pystr) :=
  match lit, s with
  | [], _ => Some ([], s)
  | p :: lit', c :: s' =>
      if ci_eq p c then
        match match_ci lit' s' with
        | Some (m, rest) => Some (c :: m, rest)
        | None => None
        end
      else None
  | _ :: _, [] => None
  end.

Section Splitter.
Context {U : UnicodeData}.

(** [re.match(r'\s*--\s*Q\d+', l, re.IGNORECASE)] as a truth value.  Each
    [\s*] takes the whole run of white space: giving some back leaves a
    white-space character where a dash or the Q is required. *)
Definition match_qmarker (l : pystr) : bool :=
  match lstrip_by is_space l with
  | d1 :: d2 :: r =>
      (d1 =? DASH)%N && (d2 =? DASH)%N &&
      match lstrip_by is_space r with
      | q :: d :: _ => ci_eq 113 q && is_digit d
      | _ => false
      end
  | _ => false
  end.

(** [\s+\d+] at the head of [s]: some non-empty run of white space followed
    by a digit. *)
Fixpoint spaces_then_digit (s : pystr) : bool :=
  match s with
  | c :: r =>
      is_space c &&
      match r with
      | d :: _ => is_digit d || spaces_then_digit r
      | [] => false
      end
  | [] => false
  end.

Definition segment_at (s : pystr) : bool :=
  match match_ci (str "segment") s with
  | Some (_, rest) => spaces_then_digit rest
  | None => false
  end.

(** [re.search(r'Segment\s+\d+', l, re.IGNORECASE)] as a truth value. *)
Fixpoint search_segment (l : pystr) : bool :=
  segment_at l ||
  match l with
  | [] => false
  | _ :: r => search_segment r
  end.

(** ** [split_mysql_statements], first loop: the comment filter *)

(** The body of [for line in lines], with [in_block] threaded through and
    the lines appended to [kept] returned in order. *)
Fixpoint filter_lines (in_block : bool) (lines : list pystr) : list pystr :=
  match lines with
  | [] => []
  | line :: rest =>
      let in_block :=
        if contains [SLASH; STAR] line && negb (contains [STAR; SLASH] line)
        then true else in_block in
      if in_block then
        filter_lines (if contains [STAR; SLASH] line then false else in_block) rest
      else
        let l := sub_block_comments line in
        if match_qmarker l || search_segment l then
          l :: filter_lines in_block rest
        else
          sub_line_comment l :: filter_lines in_block rest
  end.

Definition filter_comments (sql_text : pystr) : pystr :=
  join_lines (filter_lines false (splitlines sql_text)).

End Splitter.

(** ** [split_mysql_statements], second loop: the statement scan *)

Record scan_state := {
  stmts : list pystr;
  buff : pystr;
  in_single : bool;
  in_double : bool;
  esc : bool
}.

Definition scan_init : scan_state :=
  {| stmts := []; buff := []; in_single := false; in_double := false;
     esc := false |}.

(** The body of [for ch in text]. *)
Definition scan_step (st : scan_state) (ch : char) : scan_state :=
  let in_single' :=
    if (ch =? SQUOTE)%N && negb (in_double st) && negb (esc st)
    then negb (in_single st) else in_single st in
  let in_double' :=
    if (ch =? SQUOTE)%N && negb (in_double st) && negb (esc st)
    then in_double st
    else if (ch =? DQUOTE)%N && negb (in_single st) && negb (esc st)
    then negb (in_double st) else in_double st in
  let esc' := (ch =? BACKSLASH)%N && negb (esc st) in
  if (ch =? SEMI)%N && negb in_single' && negb in_double' then
    {| stmts := stmts st ++ [strip (buff st)]; buff := [];
       in_single := in_single'; in_double := in_double'; esc := esc' |}
  else
    {| stmts := stmts st; buff := buff st ++ [ch];
       in_single := in_single'; in_double := in_double'; esc := esc' |}.

Definition scan (st : scan_state) (text : pystr) : scan_state :=
  fold_left scan_step text st.

(** Truth value of a string: it is not empty. *)
Definition nonempty (s : pystr) : bool :=
  match s with [] => false | _ :: _ => true end.

(** What follows the scan: the tail is flushed, and the statements that are
    empty after [strip] are dropped. *)
Definition scan_finish (st : scan_state) : list pystr :=
  let stmts :=
    if nonempty (buff st) then
      let tail := strip (buff st) in
      if nonempty tail then stmts st ++ [tail] else stmts st
    else stmts st in
  List.filter (fun s => nonempty (strip s)) stmts.

Definition split_text (text : pystr) : list pystr :=
  scan_finish (scan scan_init text).

Definition split_mysql_statements {U : UnicodeData} (sql_text : pystr)
  : list pystr :=
  split_text (filter_comments sql_text).

(** ** Errors, [int] and [format] *)

Inductive exn := ValueError.

Inductive result (A : Type) : Type :=
| Ok (a : A)
| Raise (e : exn).
Arguments Ok {A} a.
Arguments Raise {A} e.

Definition bind {A B} (r : result A) (k : A -> result B) : result B :=
  match r with
  | Ok a => k a
  | Raise e => Raise e
  end.

Notation "'let*' x ':=' r 'in' k" := (bind r (fun x => k))
  (at level 10, x name, r at level 100, k at level 200).

Section Numbers.
Context {U : UnicodeData}.

(** The most digits that [int] converts:
    [sys.int_info.default_max_str_digits] of CPython from 3.11 on.  The
    program sets no other limit. *)
Definition int_max_str_digits : nat := 4300.

(** The value in base ten of a string of decimal digits, in front of which
    [acc] was read. *)
Fixpoint int_digits (acc : N) (s : pystr) : result N :=
  match s with
  | [] => Ok acc
  | c :: r =>
      match decimal_value c with
      | Some d => int_digits (10 * acc + d)%N r
      | None => Raise ValueError
      end
  end.

(** [int(s)] on the strings the program passes to it, which hold decimal
    digits only: [ValueError] for the empty string, for a string of more
    digits than the interpreter converts, zeros in front counted, and for
    a character that is no digit; the value in base ten otherwise.
    Python's integers have no bound. *)
Definition py_int (s : pystr) : result N :=
  match s with
  | [] => Raise ValueError
  | _ :: _ =>
      if int_max_str_digits <? length s then Raise ValueError
      else int_digits 0 s
  end.

End Numbers.

(** The decimal digits of [n], most significant first, in front of [acc];
    [fuel] bounds the number of digits. *)
Fixpoint dec_digits (fuel : nat) (n : N) (acc : pystr) : pystr :=
  match fuel with
  | O => acc
  | S f =>
      let acc' := (48 + n mod 10)%N :: acc in
      if (n <? 10)%N then acc' else dec_digits f (n / 10)%N acc'
  end.

(** [str(n)]: a number of [b] bits has at most [b] decimal digits. *)
Definition py_str_of_int (n : N) : pystr :=
  dec_digits (S (N.to_nat (N.size n))) n [].

(** [format(n, '02d')]: padded with zeros on the left up to two characters,
    and left as it is from two characters on.  The limit on the digits
    holds for this conversion too; the program formats only numbers that
    [int] returned, which are within it ([format_within_limit]). *)
Definition format_02d (n : N) : pystr :=
  let ds := py_str_of_int n in
  repeat 48%N (2 - length ds) ++ ds.

(** [s.upper()] on the strings the program applies it to, which hold a
    letter Q of either case and decimal digits: ASCII lower-case letters
    move to upper case, and every other character stays. *)
Definition upper_char (c : char) : char :=
  if in_range 97 122 c then (c - 32)%N else c.

Definition upper (s : pystr) : pystr := List.map upper_char s.

(** [s[i:j]] for [0 <= i] and [0 <= j]. *)
Definition slice (s : pystr) (i j : nat) : pystr := take (j - i) (drop i s).

(** ** The regular expressions of [extract_setup_and_queries] *)

(** The longest prefix of [s] whose characters satisfy [p]. *)
Fixpoint prefix_by (p : char -> bool) (s : pystr) : pystr :=
  match s with
  | c :: r => if p c then c :: prefix_by p r else []
  | [] => []
  end.

(** The class [[—\-–]] of [q_pat]. *)
Definition is_dash (c : char) : bool :=
  (c =? EM_DASH)%N || (c =? DASH)%N || (c =? EN_DASH)%N.

Definition not_lf (c : char) : bool := negb (c =? LF)%N.

(** The shortest text matched by [.*?;] under DOTALL at the head of [s]. *)
Fixpoint upto_semi (s : pystr) : option pystr :=
  match s with
  | [] => None
  | c :: r =>
      if (c =? SEMI)%N then Some [c]
      else option_map (cons c) (upto_semi r)
  end.

(** A lazy run of any characters (DOTALL) followed by [k]: the shortest run
    after which [k] matches. *)
Fixpoint lazy_then (k : pystr -> option pystr) (s : pystr) : option pystr :=
  match k s with
  | Some m => Some m
  | None =>
      match s with
      | [] => None
      | c :: r => option_map (cons c) (lazy_then k r)
      end
  end.

Section Patterns.
Context {U : UnicodeData}.

(** [\bSegment\s*1\b] at one position, [prev] the character before it.
    [\s*] takes the whole run of white space, since the digit 1 is no white
    space. *)
Definition segment1_at (prev : option char) (s : pystr) : bool :=
  word_boundary prev (head s) &&
  match match_ci (str "segment") s with
  | Some (_, rest) =>
      match lstrip_by is_space rest with
      | one :: r => (one =? 49)%N && word_boundary (Some one) (head r)
      | [] => false
      end
  | None => false
  end.

Fixpoint search_segment1_from (prev : option char) (s : pystr) : bool :=
  segment1_at prev s ||
  match s with
  | [] => false
  | c :: r => search_segment1_from (Some c) r
  end.

(** [re.search(r'\bSegment\s*1\b', s, flags=re.IGNORECASE)] as a truth
    value. *)
Definition search_segment1 (s : pystr) : bool := search_segment1_from None s.

(** [q_pat] at a position where [^] holds: the groups 1 and 0 of the match.
    Every starred item takes its longest run: before the Q a shorter run of
    white space leaves a white-space character in the place of a dash or of
    the Q, and after the digits the rest of the pattern matches whatever
    follows, so the engine never comes back.  The last group, any characters but a
    line feed, ends at the next line feed or at the end of the text, where
    the dollar of MULTILINE holds. *)
Definition q_pat_at (s : pystr) : option (pystr * pystr) :=
  let ws1 := prefix_by is_space s in
  match lstrip_by is_space s with
  | d1 :: d2 :: s2 =>
      if (d1 =? DASH)%N && (d2 =? DASH)%N then
        let ws2 := prefix_by is_space s2 in
        match lstrip_by is_space s2 with
        | q :: s4 =>
            if ci_eq 113 q then
              let ds := prefix_by is_digit s4 in
              let s5 := lstrip_by is_digit s4 in
              if nonempty ds then
                let ws3 := prefix_by is_space s5 in
                let s6 := lstrip_by is_space s5 in
                let dashes := prefix_by is_dash s6 in
                let s7 := lstrip_by is_dash s6 in
                let ws4 := prefix_by is_space s7 in
                let s8 := lstrip_by is_space s7 in
                let text := prefix_by not_lf s8 in
                Some (q :: ds,
                      ws1 ++ d1 :: d2 :: ws2 ++ q :: ds ++ ws3 ++ dashes
                          ++ ws4 ++ text)
              else None
            else None
        | [] => None
        end
      else None
  | _ => None
  end.

(** One element of [q_positions]. *)
Record marker := {
  qkey : pystr;
  start_pos : nat;
  label_line : pystr
}.

(** [q_pat.finditer(raw)] mapped to [q_positions]: [pos] is the offset of
    [s] in [raw], [bol] says that [^] holds at it (MULTILINE: the text
    starts here or the character before is a line feed), and [skip] counts
    the characters of the last match still to be passed over. *)
Fixpoint q_finditer (pos skip : nat) (bol : bool) (s : pystr) : list marker :=
  match s with
  | [] => []
  | c :: r =>
      let bol' := (c =? LF)%N in
      match skip with
      | S k => q_finditer (S pos) k bol' r
      | O =>
          match (if bol then q_pat_at s else None) with
          | Some (g1, g0) =>
              {| qkey := upper g1; start_pos := pos; label_line := g0 |}
              :: q_finditer (S pos) (length g0 - 1) bol' r
          | None => q_finditer (S pos) 0 bol' r
          end
      end
  end.

Definition q_positions (raw : pystr) : list marker := q_finditer 0 0 true raw.

(** [SELECT\b.*?;] at the head of [s]. *)
Definition select_tail (s : pystr) : option pystr :=
  match match_ci (str "select") s with
  | Some (kw, rest) =>
      if word_boundary (last kw) (head rest) then
        option_map (app kw) (upto_semi rest)
      else None
  | None => None
  end.

(** [WITH\b.+?SELECT\b.*?;] at the head of [s]: [.+?] takes one character
    and then as few more as let the rest match. *)
Definition with_tail (s : pystr) : option pystr :=
  match match_ci (str "with") s with
  | Some (kw, rest) =>
      if word_boundary (last kw) (head rest) then
        match rest with
        | c :: r => option_map (fun m => kw ++ c :: m) (lazy_then select_tail r)
        | [] => None
        end
      else None
  | None => None
  end.

(** [\b(SELECT|WITH\b.+?SELECT)\b.*?;] at one position: the first
    alternative is tried first, with all that follows the group. *)
Definition query_at (prev : option char) (s : pystr) : option pystr :=
  if word_boundary prev (head s) then
    match select_tail s with
    | Some m => Some m
    | None => with_tail s
    end
  else None.

Fixpoint search_query_from (prev : option char) (s : pystr) : option pystr :=
  match query_at prev s with
  | Some m => Some m
  | None =>
      match s with
      | [] => None
      | c :: r => search_query_from (Some c) r
      end
  end.

(** [re.search(r'(?is)\b(SELECT|WITH\b.+?SELECT)\b.*?;', block)]: group 0
    of the leftmost match, if there is one. *)
Definition search_query (block : pystr) : option pystr :=
  search_query_from None block.

End Patterns.

(** ** [extract_setup_and_queries] *)

(** A value of the [queries] dictionary. *)
Record entry := {
  label : pystr;
  sql : pystr
}.

Section Extractor.
Context {U : UnicodeData}.

(** The loop over [enumerate(statements)] that sets [seg1_idx] and breaks
    at the first statement in which the pattern is found. *)
Fixpoint find_segment1 (i : nat) (statements : list pystr) : option nat :=
  match statements with
  | [] => None
  | s :: rest =>
      if search_segment1 s then Some i else find_segment1 (S i) rest
  end.

Definition setup_statements (statements : list pystr) : list pystr :=
  match find_segment1 0 statements with
  | None => statements
  | Some seg1_idx => take seg1_idx statements
  end.

(** The body of the loop over [enumerate(q_positions)] for one marker whose
    block holds the match [g0]: the key and the entry it stores. *)
Definition query_entry (m : marker) (g0 : pystr) : result (pystr * entry) :=
  let sql := rstrip_by (fun c => (c =? SEMI)%N) (strip g0) in
  let* qnum := py_int (List.filter is_digit (qkey m)) in
  let qstd := 81%N :: format_02d qnum in
  let label :=
    strip (lstrip_by (fun c => (c =? DASH)%N) (strip (label_line m))) in
  Ok (qstd, {| label := label; sql := sql |}).

(** [raw[start_pos:end_pos]], where [end_pos] is the start of the next
    marker, or [len(raw)] after the last one. *)
Definition block_of (raw : pystr) (m : marker) (rest : list marker) : pystr :=
  let end_pos :=
    match rest with
    | m' :: _ => start_pos m'
    | [] => length raw
    end in
  slice raw (start_pos m) end_pos.

(** The loop over [enumerate(q_positions)], from the marker at the head of
    [ms] on, with the dictionary built so far. *)
Fixpoint collect_queries (raw : pystr) (ms : list marker)
    (queries : gmap pystr entry) : result (gmap pystr entry) :=
  match ms with
  | [] => Ok queries
  | m :: rest =>
      match search_query (block_of raw m rest) with
      | None => collect_queries raw rest queries
      | Some g0 =>
          let* kv := query_entry m g0 in
          collect_queries raw rest (<[kv.1 := kv.2]> queries)
      end
  end.

Definition extract_setup_and_queries (solved_sql_text : pystr)
  : result (list pystr * gmap pystr entry) :=
  let raw := solved_sql_text in
  let statements := split_mysql_statements raw in
  let* queries := collect_queries raw (q_positions raw) ∅ in
  Ok (setup_statements statements, queries).

End Extractor.

(** ** [main]: the order of the keys and the names of the sheets *)

(** [a < b] on strings, the order in which [sorted(queries.keys())] puts
    the keys: the first character that differs decides, by its code point,
    and a proper prefix comes first. *)
Fixpoint str_ltb (a b : pystr) : bool :=
  match a, b with
  | _, [] => false
  | [], _ :: _ => true
  | x :: a', y :: b' => (x <? y)%N || ((x =? y)%N && str_ltb a' b')
  end.

(** [s.replace(bad, repl)] for one character [bad] and one character
    [repl]. *)
Definition replace_char (bad repl : char) (s : pystr) : pystr :=
  List.map (fun c => if (c =? bad)%N then repl else c) s.

(** The pairs of the loop over [bad, repl]: slash and backslash become an
    underscore, colon, star and question mark a space, and the square
    brackets round ones. *)
Definition sheet_replacements : list (char * char) :=
  [(47, 95); (92, 95); (58, 32); (42, 32); (63, 32); (91, 40); (93, 41)]%N.

(** The name of the sheet of a query in [main]: [f"{qkey}_{label}"], the
    replacements one after the other, and the cut at 31 characters. *)
Definition sheet_name (qkey label : pystr) : pystr :=
  let sheet_name := qkey ++ UNDERSCORE :: label in
  let sheet_name :=
    fold_left (fun s br => replace_char br.1 br.2 s)
              sheet_replacements sheet_name in
  if 31 <? length sheet_name then take 31 sheet_name else sheet_name.

(** * Vocabulary of the properties *)

(** The scanner is inside a string opened by the quote [q]. *)
Definition inside (q : char) (st : scan_state) : Prop :=
  esc st = false /\
  ((q = SQUOTE /\ in_single st = true /\ in_double st = false) \/
   (q = DQUOTE /\ in_single st = false /\ in_double st = true)).

(** The scanner is outside every string, with no escape pending. *)
Definition outside (st : scan_state) : Prop :=
  in_single st = false /\ in_double st = false /\ esc st = false.

(** The text [x] sits in the buffer or in a statement already cut. *)
Definition holds_text (x : pystr) (st : scan_state) : Prop :=
  (exists s l1 l2, In s (stmts st) /\ s = l1 ++ x ++ l2) \/
  (exists l1 l2, buff st = l1 ++ x ++ l2).

(** Both quote flags are clear. *)
Definition quotes_closed (st : scan_state) : bool :=
  negb (in_single st) && negb (in_double st).

(** What the scan keeps true of its statements and of its buffer: every
    statement is a stripped text that does not end with the terminator, and
    outside the strings the last character of the buffer that is no white
    space is no terminator. *)
Definition scan_inv (st : scan_state) : Prop :=
  Forall (fun s => (exists b, s = strip b) /\ last s <> Some SEMI) (stmts st) /\
  (quotes_closed st = true ->
   last (rstrip_by is_space (buff st)) <> Some SEMI).

(** [m] is the literal [lit] up to the case of its letters. *)
Definition ci_match (lit m : pystr) : Prop :=
  Forall2 (fun p c => ci_eq p c = true) lit m.

(** The previous character at the end of [pre], or [prev] before it. *)
Definition prev_of (prev : option char) (pre : pystr) : option char :=
  match last pre with Some c => Some c | None => prev end.

(** [queries[k] = v] for the pair of a key and its entry. *)
Definition store (queries : gmap pystr entry) (kv : pystr * entry)
  : gmap pystr entry := <[kv.1 := kv.2]> queries.

(** The phase-marker token as the specification words it, to compare with
    [search_segment1]: the word Segment in any case of its letters, then
    white space, one character of it at least, then the digit 1. *)
Definition spec_token_at (s : pystr) : bool :=
  match match_ci (str "segment") s with
  | Some (_, c :: r) =>
      is_space c &&
      match lstrip_by is_space r with
      | one :: _ => (one =? 49)%N
      | [] => false
      end
  | _ => false
  end.

Fixpoint spec_phase_token (s : pystr) : bool :=
  spec_token_at s ||
  match s with
  | [] => false
  | _ :: r => spec_phase_token r
  end.

Section Vocabulary.
Context {U : UnicodeData}.

(** A marker as [q_pat] finds it: its key is the letter Q and one or more
    decimal digits. *)
Definition marker_wf (m : marker) : Prop :=
  exists ds, qkey m = 81%N :: ds /\ ds <> [] /\
             Forall (fun d => is_digit d = true) ds.

(** The number of the marker has no more digits than [int] converts. *)
Definition short (m : marker) : bool :=
  length (List.filter is_digit (qkey m)) <=? int_max_str_digits.

(** Every marker from [ms] on whose block holds a match has such a
    number: the loop over the markers meets no number that [int]
    refuses. *)
Fixpoint converts (raw : pystr) (ms : list marker) : bool :=
  match ms with
  | [] => true
  | m :: rest =>
      match search_query (block_of raw m rest) with
      | None => converts raw rest
      | Some _ => short m && converts raw rest
      end
  end.

(** The entries the loop stores, in the order it stores them, up to the
    first marker at which it raises. *)
Fixpoint entries (raw : pystr) (ms : list marker) : list (pystr * entry) :=
  match ms with
  | [] => []
  | m :: rest =>
      match search_query (block_of raw m rest) with
      | None => entries raw rest
      | Some g0 =>
          match query_entry m g0 with
          | Ok kv => kv :: entries raw rest
          | Raise _ => []
          end
      end
  end.

End Vocabulary.

(** Two states of the scan that differ in the statements cut so far only,
    the first having [pre] in front of the statements of the second. *)
Definition ahead (pre : list pystr) (st st' : scan_state) : Prop :=
  stmts st = pre ++ stmts st' /\ buff st = buff st' /\
  in_single st = in_single st' /\ in_double st = in_double st' /\
  esc st = esc st'.

(** [s] with every line feed written as a carriage return and a line
    feed. *)
Fixpoint to_crlf (s : pystr) : pystr :=
  match s with
  | [] => []
  | c :: r => if (c =? LF)%N then CR :: LF :: to_crlf r else c :: to_crlf r
  end.

(** The markers [ms] lie in [raw] from the offset [lo] on, one behind the
    other: each is the text of [raw] at its offset, which is the start of
    a line, and the next one starts behind it. *)
Fixpoint placed (lo : nat) (raw : pystr) (ms : list marker) : Prop :=
  match ms with
  | [] => True
  | m :: rest =>
      lo <= start_pos m /\
      label_line m <> [] /\
      slice raw (start_pos m) (start_pos m + length (label_line m))
        = label_line m /\
      (start_pos m = 0 \/ raw !! (start_pos m - 1) = Some LF) /\
      placed (start_pos m + length (label_line m)) raw rest
  end.

(** The blocks of the markers, in order. *)
Fixpoint blocks (raw : pystr) (ms : list marker) : list pystr :=
  match ms with
  | [] => []
  | m :: rest => block_of raw m rest :: blocks raw rest
  end.


(** A piece of the body of a string literal: one character that is neither
    the quote of the literal nor a backslash, or a backslash and the
    character behind it, whatever it is. *)
Inductive piece : Type :=
| Plain (c : char)
| Escaped (c : char).

Definition piece_chars (p : piece) : pystr :=
  match p with
  | Plain c => [c]
  | Escaped c => [BACKSLASH; c]
  end.

Definition piece_of (q : char) (p : piece) : Prop :=
  match p with
  | Plain c => c <> q /\ c <> BACKSLASH
  | Escaped _ => True
  end.

(** One of the seven characters that [main] replaces. *)
Definition is_bad_sheet_char (c : char) : bool :=
  existsb (fun br : char * char => (c =? br.1)%N) sheet_replacements.

(** A character of a normalized key: the letter Q or an ASCII digit. *)
Definition is_key_char (c : char) : bool := (c =? 81)%N || in_range 48 57 c.

(** All the replacements on one character. *)
Definition clean_sheet_char (c : char) : char :=
  fold_left (fun c br => if (c =? fst br)%N then snd br else c)
            sheet_replacements c.

(** A character the splitter may drop between two statements: white space
    or a terminator. *)
Definition is_gap (c : char) : bool := is_space c || (c =? SEMI)%N.

(** [woven l text]: the text is the statements of [l], in their order,
    with a run of white space and terminators before each of them and one
    at the end, and nothing else. *)
Inductive woven : list pystr -> pystr -> Prop :=
| woven_end g :
    Forall (fun c => is_gap c = true) g -> woven [] g
| woven_next g s l text :
    Forall (fun c => is_gap c = true) g -> woven l text ->
    woven (s :: l) (g ++ s ++ text).

(** * Properties *)

(** ** The model at some texts *)

Example splitlines_ex :
  splitlines (str "a" ++ [CR; LF] ++ str "b" ++ [LF; LF] ++ str "c" ++ [LF])
  = [str "a"; str "b"; []; str "c"].
Proof. reflexivity. Qed.

Example split_quotes_ex (U : UnicodeData) :
  split_mysql_statements (str "SELECT ';' ; SELECT 1;")
  = [str "SELECT ';'"; str "SELECT 1"].
Proof. vm_compute. reflexivity. Qed.

Example split_block_ex (U : UnicodeData) :
  split_mysql_statements (str "A /* x; y */ B;") = [str "A   B"].
Proof. vm_compute. reflexivity. Qed.

Example split_marker_ex (U : UnicodeData) :
  split_mysql_statements
    (str "-- Q1 a;b" ++ [LF] ++ str "SELECT 1; -- note" ++ [LF]
     ++ str "/* open" ++ [LF] ++ str "x; */ SELECT 2;" ++ [LF] ++ str "SELECT 3")
  = [str "-- Q1 a"; str "b" ++ [LF] ++ str "SELECT 1"; str "SELECT 3"].
Proof. vm_compute. reflexivity. Qed.

(** A marker line with nothing behind its number: the white space that
    [q_pat] allows there takes the line feed, and the next line becomes the
    text of the label. *)
Example label_takes_next_line (U : UnicodeData) :
  q_positions (str "-- Q1" ++ [LF] ++ str "SELECT 1;")
  = [ {| qkey := str "Q1"; start_pos := 0;
         label_line := str "-- Q1" ++ [LF] ++ str "SELECT 1;" |} ].
Proof. vm_compute. reflexivity. Qed.

(** The block of a marker starts at the marker line, so the query pattern
    also looks at the words of the label. *)
Example query_found_in_label (U : UnicodeData) :
  search_query (str "-- Q5 - Select the top" ++ [LF] ++ str "SELECT 1;")
  = Some (str "Select the top" ++ [LF] ++ str "SELECT 1;").
Proof. vm_compute. reflexivity. Qed.

Example extract_marker_ex (U : UnicodeData) :
  extract_setup_and_queries
    (str "-- Q1 - Find something" ++ [LF] ++ str "SELECT 1;")
  = Ok ([str "-- Q1 - Find something" ++ [LF] ++ str "SELECT 1"],
        {[ str "Q01" := {| label := str "Q1 - Find something";
                           sql := str "SELECT 1" |} ]}).
Proof. vm_compute. reflexivity. Qed.

(** ** Stripping *)

Lemma lstrip_by_head p s c r :
  lstrip_by p s = c :: r -> p c = false.
Proof.
  induction s as [|a s IH]; simpl; [discriminate|].
  destruct (p a) eqn:Ha; [exact IH|].
  intros [= -> _]. exact Ha.
Qed.

Lemma lstrip_by_fix p s c :
  head s = Some c -> p c = false -> lstrip_by p s = s.
Proof.
  destruct s as [|a s]; simpl; [discriminate|].
  intros [= ->] ->. reflexivity.
Qed.

Lemma lstrip_by_idem p s : lstrip_by p (lstrip_by p s) = lstrip_by p s.
Proof.
  destruct (lstrip_by p s) as [|c r] eqn:E; [reflexivity|].
  apply lstrip_by_head in E. simpl. now rewrite E.
Qed.

(** A stripped string is what is left after a run of stripped characters. *)
Lemma lstrip_by_split p s :
  s = prefix_by p s ++ lstrip_by p s.
Proof.
  induction s as [|a s IH]; simpl; [reflexivity|].
  destruct (p a); simpl; [now f_equal|reflexivity].
Qed.

Lemma prefix_by_Forall p s : Forall (fun c => p c = true) (prefix_by p s).
Proof.
  induction s as [|a s IH]; simpl; [constructor|].
  destruct (p a) eqn:Ha; constructor; assumption.
Qed.

Lemma lstrip_by_app_all p ws s :
  Forall (fun c => p c = true) ws -> lstrip_by p (ws ++ s) = lstrip_by p s.
Proof.
  induction 1 as [|a ws Ha _ IH]; simpl; [reflexivity|].
  now rewrite Ha.
Qed.

Lemma prefix_by_app_all p ws s :
  Forall (fun c => p c = true) ws ->
  prefix_by p (ws ++ s) = ws ++ prefix_by p s.
Proof.
  induction 1 as [|a ws Ha _ IH]; simpl; [reflexivity|].
  rewrite Ha. now f_equal.
Qed.

Lemma rstrip_by_snoc p s c :
  rstrip_by p (s ++ [c]) = if p c then rstrip_by p s else s ++ [c].
Proof.
  unfold rstrip_by. rewrite rev_app_distr. simpl.
  destruct (p c); [reflexivity|].
  simpl. now rewrite rev_involutive.
Qed.

Lemma rstrip_by_nil p : rstrip_by p [] = [].
Proof. reflexivity. Qed.

Lemma rstrip_by_last p s c : last (rstrip_by p s) = Some c -> p c = false.
Proof.
  induction s as [|a s IH] using rev_ind; [discriminate|].
  rewrite rstrip_by_snoc. destruct (p a) eqn:Ha; [exact IH|].
  rewrite last_snoc. intros [= <-]. exact Ha.
Qed.

Lemma rstrip_by_idem p s : rstrip_by p (rstrip_by p s) = rstrip_by p s.
Proof.
  unfold rstrip_by. rewrite rev_involutive. now rewrite lstrip_by_idem.
Qed.

(** [rstrip] keeps everything up to a character it does not strip. *)
Lemma rstrip_by_app_keep p s c t :
  p c = false -> rstrip_by p (s ++ c :: t) = s ++ c :: rstrip_by p t.
Proof.
  intros Hc. induction t as [|a t IH] using rev_ind.
  - change (s ++ [c]) with (s ++ [c]). rewrite rstrip_by_snoc, Hc.
    reflexivity.
  - replace (s ++ c :: t ++ [a]) with ((s ++ c :: t) ++ [a])
      by now rewrite <- app_assoc.
    rewrite !rstrip_by_snoc. destruct (p a); [exact IH|].
    now rewrite <- app_assoc.
Qed.

Lemma rstrip_by_all p s :
  Forall (fun c => p c = true) s -> rstrip_by p s = [].
Proof.
  induction s as [|a s IH] using rev_ind; [reflexivity|].
  intros H. apply Forall_app in H as [Hs Ha].
  rewrite rstrip_by_snoc. inversion Ha as [|? ? Hpa _]; subst.
  rewrite Hpa. now apply IH.
Qed.

(** [rstrip] after a run of stripped characters: the run survives exactly
    when something is left behind it. *)
Lemma rstrip_by_app_all p ws s :
  Forall (fun c => p c = true) ws ->
  rstrip_by p (ws ++ s) =
    match rstrip_by p s with [] => [] | _ :: _ => ws ++ rstrip_by p s end.
Proof.
  intros Hws. induction s as [|a s IH] using rev_ind.
  - rewrite app_nil_r. simpl. now apply rstrip_by_all.
  - rewrite app_assoc, !rstrip_by_snoc. destruct (p a); [exact IH|].
    rewrite <- app_assoc. destruct s; reflexivity.
Qed.

Lemma strip_nonempty_head s c r : strip s = c :: r -> is_space c = false.
Proof.
  unfold strip. intros E.
  destruct (lstrip_by is_space s) as [|a t] eqn:El; [discriminate|].
  pose proof (lstrip_by_head _ _ _ _ El) as Ha.
  change (a :: t) with ([] ++ a :: t) in E.
  rewrite rstrip_by_app_keep in E by exact Ha.
  simpl in E. now injection E as <- _.
Qed.

Lemma strip_last s c : last (strip s) = Some c -> is_space c = false.
Proof. apply rstrip_by_last. Qed.

Lemma strip_idem s : strip (strip s) = strip s.
Proof.
  destruct (strip s) as [|c r] eqn:E; [reflexivity|].
  pose proof (strip_nonempty_head _ _ _ E) as Hc.
  rewrite <- E. unfold strip at 1.
  rewrite (lstrip_by_fix _ _ c); [|now rewrite E|exact Hc].
  unfold strip. apply rstrip_by_idem.
Qed.

(** The last character of a stripped string is the last character of the
    string that is no white space. *)
Lemma strip_last_rstrip s : last (strip s) = last (rstrip_by is_space s).
Proof.
  unfold strip. rewrite (lstrip_by_split is_space s) at 2.
  rewrite rstrip_by_app_all by apply prefix_by_Forall.
  destruct (rstrip_by is_space (lstrip_by is_space s)) as [|a t];
    [reflexivity|].
  now rewrite last_app_cons.
Qed.

(** A text that starts and ends with characters that are no white space
    survives [strip] wherever it stands in the stripped string. *)
Lemma lstrip_by_infix p l1 x xs l2 :
  p x = false ->
  exists l1', lstrip_by p (l1 ++ x :: xs ++ l2) = l1' ++ x :: xs ++ l2.
Proof.
  intros Hx. induction l1 as [|a l1 [l1' IH]]; simpl.
  - exists []. now rewrite Hx.
  - destruct (p a); [now exists l1'|now exists (a :: l1)].
Qed.

Lemma strip_infix l1 x l2 :
  (exists a r, x = a :: r /\ is_space a = false) ->
  (exists b, last x = Some b /\ is_space b = false) ->
  exists l1' l2', strip (l1 ++ x ++ l2) = l1' ++ x ++ l2'.
Proof.
  intros (a & r & -> & Ha) (b & Hb & Hsb).
  unfold strip.
  destruct (lstrip_by_infix is_space l1 a r l2 Ha) as [l1' E].
  change ((a :: r) ++ l2) with (a :: r ++ l2). rewrite E.
  apply last_Some in Hb as [x0 Hx0].
  exists l1', (rstrip_by is_space l2).
  change (a :: r ++ l2) with ((a :: r) ++ l2). rewrite Hx0.
  rewrite <- !app_assoc. simpl. rewrite !app_assoc.
  now apply rstrip_by_app_keep.
Qed.

(** ** The statement scan *)

Lemma scan_app st a b : scan st (a ++ b) = scan (scan st a) b.
Proof. apply fold_left_app. Qed.

Lemma scan_cons st c t : scan st (c :: t) = scan (scan_step st c) t.
Proof. reflexivity. Qed.

(** A character that is no terminator ends no statement. *)
Lemma scan_step_not_semi st c :
  c <> SEMI ->
  stmts (scan_step st c) = stmts st /\ buff (scan_step st c) = buff st ++ [c].
Proof.
  intros Hc. unfold scan_step.
  destruct (N.eqb_spec c SEMI) as [->|_]; [contradiction|].
  simpl. split; reflexivity.
Qed.

Lemma scan_no_semi text : forall st,
  ~ In SEMI text ->
  stmts (scan st text) = stmts st /\ buff (scan st text) = buff st ++ text.
Proof.
  induction text as [|c t IH]; intros st Hno.
  - simpl. now rewrite app_nil_r.
  - rewrite scan_cons.
    assert (Hc : c <> SEMI) by (intros ->; apply Hno; now left).
    destruct (scan_step_not_semi st c Hc) as [Hs Hb].
    destruct (IH (scan_step st c)) as [Hs' Hb'].
    { intros H; apply Hno; now right. }
    rewrite Hs', Hb', Hs, Hb. split; [reflexivity|].
    now rewrite <- app_assoc.
Qed.

Lemma scan_step_inside q st c :
  inside q st -> c <> q -> c <> BACKSLASH ->
  inside q (scan_step st c) /\
  stmts (scan_step st c) = stmts st /\
  buff (scan_step st c) = buff st ++ [c].
Proof.
  intros [He [(-> & Hs & Hd)|(-> & Hs & Hd)]] Hq Hb;
    apply N.eqb_neq in Hq, Hb;
    unfold scan_step, inside; rewrite He, Hs, Hd, ?Hq, Hb; simpl;
    destruct (c =? SQUOTE)%N, (c =? DQUOTE)%N, (c =? SEMI)%N;
    try discriminate; simpl; intuition (auto; try discriminate).
Qed.

Lemma scan_inside q body : forall st,
  inside q st -> ~ In q body -> ~ In BACKSLASH body ->
  inside q (scan st body) /\
  stmts (scan st body) = stmts st /\
  buff (scan st body) = buff st ++ body.
Proof.
  induction body as [|c t IH]; intros st Hin Hq Hb.
  - simpl. now rewrite app_nil_r.
  - rewrite scan_cons.
    destruct (scan_step_inside q st c Hin) as (Hin' & Hs & Hbf).
    { intros ->. apply Hq. now left. }
    { intros ->. apply Hb. now left. }
    destruct (IH (scan_step st c) Hin') as (Hin'' & Hs' & Hbf').
    { intros H. apply Hq. now right. }
    { intros H. apply Hb. now right. }
    rewrite Hs', Hbf', Hs, Hbf.
    split; [exact Hin''|split; [reflexivity|]].
    now rewrite <- app_assoc.
Qed.

Lemma scan_step_open q st :
  (q = SQUOTE \/ q = DQUOTE) -> outside st ->
  inside q (scan_step st q) /\
  stmts (scan_step st q) = stmts st /\
  buff (scan_step st q) = buff st ++ [q].
Proof.
  intros [-> | ->] (Hs & Hd & He); unfold scan_step, inside;
    rewrite Hs, Hd, He; simpl; intuition auto.
Qed.

Lemma scan_step_close q st :
  inside q st ->
  outside (scan_step st q) /\
  stmts (scan_step st q) = stmts st /\
  buff (scan_step st q) = buff st ++ [q].
Proof.
  intros [He [(-> & Hs & Hd)|(-> & Hs & Hd)]]; unfold scan_step, outside;
    rewrite Hs, Hd, He; simpl; intuition auto.
Qed.

(** A whole string literal goes into the buffer and ends no statement. *)
Lemma scan_literal q body st :
  (q = SQUOTE \/ q = DQUOTE) -> outside st ->
  ~ In q body -> ~ In BACKSLASH body ->
  outside (scan st (q :: body ++ [q])) /\
  stmts (scan st (q :: body ++ [q])) = stmts st /\
  buff (scan st (q :: body ++ [q])) = buff st ++ q :: body ++ [q].
Proof.
  intros Hq Hout Hnq Hnb.
  rewrite scan_cons, scan_app.
  destruct (scan_step_open q st Hq Hout) as (H1 & S1 & B1).
  destruct (scan_inside q body _ H1 Hnq Hnb) as (H2 & S2 & B2).
  destruct (scan_step_close q _ H2) as (H3 & S3 & B3).
  change (scan (scan (scan_step st q) body) [q])
    with (scan_step (scan (scan_step st q) body) q).
  rewrite S3, B3, S2, B2, S1, B1.
  split; [exact H3|split; [reflexivity|]].
  rewrite <- !app_assoc. reflexivity.
Qed.

Lemma strip_infix_nonempty l1 x l2 :
  (exists a r, x = a :: r /\ is_space a = false) ->
  (exists b, last x = Some b /\ is_space b = false) ->
  nonempty (strip (l1 ++ x ++ l2)) = true.
Proof.
  intros Ha Hb. destruct (strip_infix l1 x l2 Ha Hb) as (l1' & l2' & ->).
  destruct Ha as (a & r & -> & _). now destruct l1'.
Qed.

Lemma scan_step_holds x st c :
  (exists a r, x = a :: r /\ is_space a = false) ->
  (exists b, last x = Some b /\ is_space b = false) ->
  holds_text x st -> holds_text x (scan_step st c).
Proof.
  intros Ha Hb [ (s & l1 & l2 & Hin & ->) | (l1 & l2 & Hbuf) ].
  - left. exists (l1 ++ x ++ l2), l1, l2. split; [|reflexivity].
    unfold scan_step. destruct (_ && _ && _); simpl; [|exact Hin].
    apply in_or_app. now left.
  - unfold scan_step, holds_text.
    destruct (_ && _ && _); simpl.
    + left. rewrite Hbuf.
      destruct (strip_infix l1 x l2 Ha Hb) as (l1' & l2' & E).
      exists (l1' ++ x ++ l2'), l1', l2'. split; [|reflexivity].
      apply in_or_app. right. left. exact E.
    + right. exists l1, (l2 ++ [c]). rewrite Hbuf.
      now rewrite <- !app_assoc.
Qed.

Lemma scan_holds x text : forall st,
  (exists a r, x = a :: r /\ is_space a = false) ->
  (exists b, last x = Some b /\ is_space b = false) ->
  holds_text x st -> holds_text x (scan st text).
Proof.
  induction text as [|c t IH]; intros st Ha Hb H; [exact H|].
  rewrite scan_cons. apply IH; try assumption.
  now apply scan_step_holds.
Qed.

Lemma scan_finish_holds x st :
  (exists a r, x = a :: r /\ is_space a = false) ->
  (exists b, last x = Some b /\ is_space b = false) ->
  holds_text x st ->
  exists s l1 l2, In s (scan_finish st) /\ s = l1 ++ x ++ l2.
Proof.
  intros Ha Hb [ (s & l1 & l2 & Hin & ->) | (l1 & l2 & Hbuf) ].
  - exists (l1 ++ x ++ l2), l1, l2. split; [|reflexivity].
    unfold scan_finish. apply filter_In. split.
    + destruct (nonempty (buff st)); [|exact Hin].
      destruct (nonempty (strip (buff st))); [|exact Hin].
      apply in_or_app. now left.
    + now apply strip_infix_nonempty.
  - destruct (strip_infix l1 x l2 Ha Hb) as (l1' & l2' & E).
    exists (l1' ++ x ++ l2'), l1', l2'. split; [|reflexivity].
    unfold scan_finish. rewrite Hbuf.
    assert (Hne : nonempty (l1 ++ x ++ l2) = true).
    { destruct Ha as (a & r & -> & _). now destruct l1. }
    rewrite Hne, (strip_infix_nonempty l1 x l2 Ha Hb).
    apply filter_In. split.
    + apply in_or_app. right. left. exact E.
    + now apply strip_infix_nonempty.
Qed.

Lemma scan_inv_init : scan_inv scan_init.
Proof. split; [constructor|discriminate]. Qed.

Lemma scan_step_inv st ch : scan_inv st -> scan_inv (scan_step st ch).
Proof.
  intros [Hst Hbuf]. unfold scan_inv, scan_step, quotes_closed in *.
  destruct (N.eqb_spec ch SEMI) as [->|Hsemi].
  - change (SEMI =? SQUOTE)%N with false. change (SEMI =? DQUOTE)%N with false.
    cbn [andb]. destruct (in_single st), (in_double st); cbn -[strip rstrip_by];
      try (split; [exact Hst|discriminate]).
    split; [|discriminate].
    apply Forall_app. split; [exact Hst|].
    constructor; [|constructor]. split; [now eexists|].
    rewrite strip_last_rstrip. now apply Hbuf.
  - cbn [andb]. cbn -[strip rstrip_by]. split; [exact Hst|].
    rewrite rstrip_by_snoc.
    destruct (is_space ch) eqn:Hsp.
    + assert (Hq1 : (ch =? SQUOTE)%N = false).
      { apply N.eqb_neq. intros ->. discriminate. }
      assert (Hq2 : (ch =? DQUOTE)%N = false).
      { apply N.eqb_neq. intros ->. discriminate. }
      rewrite Hq1, Hq2. cbn [andb]. exact Hbuf.
    + intros _. rewrite last_snoc. congruence.
Qed.

Lemma scan_inv_scan text : forall st, scan_inv st -> scan_inv (scan st text).
Proof.
  induction text as [|c t IH]; intros st H; [exact H|].
  rewrite scan_cons. apply IH. now apply scan_step_inv.
Qed.

Lemma strip_nil : strip [] = [].
Proof. reflexivity. Qed.

(** The statements of a scan that ends in [st]. *)
Lemma scan_finish_spec st s :
  scan_inv st -> In s (scan_finish st) ->
  s <> [] /\ strip s = s /\
  (last s = Some SEMI ->
   last (scan_finish st) = Some s /\ quotes_closed st = false).
Proof.
  intros [Hst Hbuf] Hin. unfold scan_finish in *.
  apply filter_In in Hin as [Hin Hne].
  assert (Hnil : s <> []) by (intros ->; discriminate).
  set (tail := strip (buff st)) in *.
  assert (Hcase : In s (stmts st) \/
            (s = tail /\ nonempty (buff st) = true /\ nonempty tail = true)).
  { destruct (nonempty (buff st)); [|now left].
    destruct (nonempty tail); [|now left].
    apply in_app_or in Hin as [H|[H|[]]]; [now left|right; auto]. }
  destruct Hcase as [Hs | (-> & Hb & Ht)].
  - rewrite Forall_forall in Hst.
    destruct (Hst s) as [[b ->] Hlast].
    { apply list_elem_of_In. exact Hs. }
    split; [exact Hnil|]. split; [apply strip_idem|]. intros H.
    contradiction.
  - split; [exact Hnil|]. split; [apply strip_idem|]. intros H.
    rewrite Hb, Ht. rewrite List.filter_app. simpl. rewrite Hne.
    split; [apply last_snoc|].
    destruct (quotes_closed st) eqn:Hq; [|reflexivity].
    exfalso. apply (Hbuf eq_refl). unfold tail in H.
    now rewrite strip_last_rstrip in H.
Qed.

(** ** Substrings and same-line block comments *)

Lemma starts_with_app pat s : starts_with pat (pat ++ s) = true.
Proof.
  induction pat as [|p pat IH]; simpl; [reflexivity|].
  now rewrite N.eqb_refl.
Qed.

Lemma contains_app pat a b : contains pat (a ++ pat ++ b) = true.
Proof.
  induction a as [|c a IH].
  - change ([] ++ pat ++ b) with (pat ++ b).
    pose proof (starts_with_app pat b) as H.
    destruct (pat ++ b); simpl; now rewrite H.
  - simpl. rewrite IH. apply orb_true_r.
Qed.

Lemma contains_false_suffix pat a b :
  contains pat (a ++ b) = false -> starts_with pat b = false.
Proof.
  induction a as [|c a IH]; simpl.
  - destruct b; simpl; intros H; apply orb_false_elim in H; tauto.
  - intros H. apply orb_false_elim in H as [_ H]. now apply IH.
Qed.

Lemma contains_false_prefix pat a b :
  contains pat (a ++ b) = false -> contains pat a = false.
Proof.
  induction a as [|c a IH].
  - simpl. destruct pat; [|reflexivity].
    destruct b; simpl; discriminate.
  - simpl (contains pat ((c :: a) ++ b)). intros H.
    apply orb_false_elim in H as [H1 H2]. simpl.
    rewrite (IH H2), orb_false_r.
    destruct pat as [|p pat]; [discriminate|].
    simpl in *. destruct (c =? p)%N; [|reflexivity]. simpl in *.
    clear -H1. revert a H1.
    induction pat as [|p' pat IHp]; intros a H1; [discriminate|].
    destruct a as [|d a]; [reflexivity|]. simpl in *.
    destruct (d =? p')%N; [|reflexivity]. simpl in *. now apply IHp.
Qed.

(** The closer is found right behind a body that holds none. *)
Lemma close_len_body body post :
  contains [STAR; SLASH] body = false -> ~ In LF body ->
  close_len (body ++ STAR :: SLASH :: post) = Some (length body + 2).
Proof.
  induction body as [|c body IH]; intros Hc Hlf; [reflexivity|].
  simpl (close_len _).
  assert (Hs : starts_with [STAR; SLASH] (c :: body ++ STAR :: SLASH :: post)
               = false).
  { simpl in Hc. apply orb_false_elim in Hc as [Hc _].
    simpl. destruct (c =? STAR)%N; [|reflexivity]. simpl in *.
    destruct body as [|d body]; [reflexivity|]. simpl in *.
    now rewrite andb_true_r in *. }
  simpl in Hs. rewrite Hs.
  assert (Hne : (c =? LF)%N = false).
  { apply N.eqb_neq. intros ->. apply Hlf. now left. }
  rewrite Hne, IH; [reflexivity| |].
  - simpl in Hc. apply orb_false_elim in Hc. tauto.
  - intros H. apply Hlf. now right.
Qed.

Lemma sub_block_comments_skip a b :
  sub_block_comments_from (length a) (a ++ b) = sub_block_comments_from 0 b.
Proof. induction a as [|c a IH]; [reflexivity|exact IH]. Qed.

Lemma sub_block_comments_from_0 c r :
  sub_block_comments_from 0 (c :: r) =
    if starts_with [SLASH; STAR] (c :: r) then
      match close_len (drop 2 (c :: r)) with
      | Some n => SPACE :: sub_block_comments_from (S n) r
      | None => c :: sub_block_comments_from 0 r
      end
    else c :: sub_block_comments_from 0 r.
Proof. reflexivity. Qed.

(** The first same-line block comment of a line becomes one space. *)
Lemma sub_block_comments_first pre body post :
  contains [SLASH; STAR] pre = false ->
  contains [STAR; SLASH] body = false -> ~ In LF body ->
  sub_block_comments (pre ++ SLASH :: STAR :: body ++ STAR :: SLASH :: post)
  = pre ++ SPACE :: sub_block_comments post.
Proof.
  intros Hpre Hbody Hlf. unfold sub_block_comments.
  induction pre as [|c pre IH].
  - simpl app. rewrite sub_block_comments_from_0.
    change (starts_with [SLASH; STAR]
              (SLASH :: STAR :: body ++ STAR :: SLASH :: post)) with true.
    cbv iota.
    change (drop 2 (SLASH :: STAR :: body ++ STAR :: SLASH :: post))
      with (body ++ STAR :: SLASH :: post).
    rewrite (close_len_body body post Hbody Hlf). f_equal.
    replace (S (length body + 2))
      with (length (STAR :: body ++ [STAR; SLASH])).
    2:{ simpl. rewrite length_app. simpl. lia. }
    replace (STAR :: body ++ STAR :: SLASH :: post)
      with ((STAR :: body ++ [STAR; SLASH]) ++ post)
      by (simpl; now rewrite <- app_assoc).
    apply sub_block_comments_skip.
  - simpl app. rewrite sub_block_comments_from_0.
    assert (Hs : starts_with [SLASH; STAR]
              (c :: pre ++ SLASH :: STAR :: body ++ STAR :: SLASH :: post)
            = false).
    { simpl in Hpre. apply orb_false_elim in Hpre as [Hpre _].
      simpl. destruct (c =? SLASH)%N; [|reflexivity]. simpl in *.
      destruct pre as [|d pre]; [reflexivity|]. simpl in *.
      now rewrite andb_true_r in *. }
    rewrite Hs. f_equal. apply IH.
    simpl in Hpre. apply orb_false_elim in Hpre. tauto.
Qed.

Lemma quote_not_space q : q = SQUOTE \/ q = DQUOTE -> is_space q = false.
Proof. intros [-> | ->]; reflexivity. Qed.

Section Splitter_Claims.
Context {U : UnicodeData}.

(** C1, amended (quote safety of the scan).  A terminator met while a quote
    flag is set ends no statement: it joins the buffer and leaves the flags
    as they are.  Whenever the text that reaches the statement scan, which
    is the text after the comment filter, holds a string literal, that is a quote of either style, a body without
    that quote and without a backslash, and the same quote again, met while
    the scanner is outside every string, the scan of the literal cuts no
    statement: the list of statements is the same before and after it, the
    literal is appended whole to the buffer, terminators included, and it
    stands whole inside one statement of the result.  In particular
    [SELECT ';' ; SELECT 1;] splits into exactly [SELECT ';'] and
    [SELECT 1]. *)
Theorem split_quote_safety :
  (forall st,
      quotes_closed st = false ->
      stmts (scan_step st SEMI) = stmts st /\
      buff (scan_step st SEMI) = buff st ++ [SEMI] /\
      in_single (scan_step st SEMI) = in_single st /\
      in_double (scan_step st SEMI) = in_double st)
  /\ (forall raw pre q body post,
      q = SQUOTE \/ q = DQUOTE ->
      filter_comments raw = pre ++ q :: body ++ q :: post ->
      outside (scan scan_init pre) ->
      ~ In q body -> ~ In BACKSLASH body ->
      let st := scan scan_init pre in
      let st' := scan st (q :: body ++ [q]) in
      stmts st' = stmts st /\
      buff st' = buff st ++ q :: body ++ [q] /\
      outside st' /\
      exists s l1 l2,
        In s (split_mysql_statements raw) /\ s = l1 ++ (q :: body ++ [q]) ++ l2)
  /\ split_mysql_statements (str "SELECT ';' ; SELECT 1;")
     = [str "SELECT ';'"; str "SELECT 1"].
Proof.
  split; [|split; [|vm_compute; reflexivity]].
  { intros st Hq. unfold quotes_closed in Hq. unfold scan_step.
    change (SEMI =? SQUOTE)%N with false. change (SEMI =? DQUOTE)%N with false.
    change (SEMI =? SEMI)%N with true. cbn [andb].
    destruct (in_single st), (in_double st); try discriminate;
      repeat split. }
  intros raw pre q body post Hq Hraw Hout Hnq Hnb st st'.
  destruct (scan_literal q body st Hq Hout Hnq Hnb) as (H1 & H2 & H3).
  repeat (split; [assumption|]).
  unfold split_mysql_statements, split_text. rewrite Hraw.
  replace (pre ++ q :: body ++ q :: post)
    with (pre ++ (q :: body ++ [q]) ++ post)
    by (simpl; now rewrite <- app_assoc).
  rewrite !scan_app. fold st. fold st'.
  pose proof (quote_not_space q Hq) as Hsp.
  assert (Ha : exists a r, q :: body ++ [q] = a :: r /\ is_space a = false)
    by (exists q, (body ++ [q]); now split).
  assert (Hb : exists b, last (q :: body ++ [q]) = Some b /\ is_space b = false).
  { exists q. split; [|assumption].
    change (q :: body ++ [q]) with ((q :: body) ++ [q]). apply last_snoc. }
  apply scan_finish_holds; try assumption.
  apply scan_holds; try assumption.
  right. exists (buff st), []. subst st'. rewrite H3. now rewrite app_nil_r.
Qed.

(** The comment filter on a line met outside a block comment that opens no
    block comment of several lines. *)
Lemma filter_lines_plain line rest :
  contains [SLASH; STAR] line && negb (contains [STAR; SLASH] line) = false ->
  filter_lines false (line :: rest) =
    (let l := sub_block_comments line in
     if match_qmarker l || search_segment l then l else sub_line_comment l)
    :: filter_lines false rest.
Proof.
  intros H. simpl. rewrite H.
  destruct (match_qmarker _ || search_segment _); reflexivity.
Qed.

(** C6 (block comment removal).  In a line, the first block comment that
    opens and closes on the line is replaced by one space, the text before
    it is kept as it is, the text after it is treated the same way, and the
    filter emits the line so rewritten (under the preservation rule, or
    else with its line comment cut).  [A /* x; y */ B;] splits into the one
    statement [A   B], which holds no opener, no closer and none of the
    comment's text. *)
Theorem block_comment_removal :
  (forall pre body post rest,
      contains [SLASH; STAR] pre = false ->
      contains [STAR; SLASH] body = false ->
      ~ In LF body ->
      let line := pre ++ SLASH :: STAR :: body ++ STAR :: SLASH :: post in
      let l := pre ++ SPACE :: sub_block_comments post in
      sub_block_comments line = l /\
      filter_lines false (line :: rest) =
        (if match_qmarker l || search_segment l then l
         else sub_line_comment l) :: filter_lines false rest)
  /\ split_mysql_statements (str "A /* x; y */ B;") = [str "A   B"]
  /\ contains (str "/*") (str "A   B") = false
  /\ contains (str "*/") (str "A   B") = false
  /\ contains (str "x; y") (str "A   B") = false.
Proof.
  split; [|repeat split; vm_compute; reflexivity].
  intros pre body post rest Hpre Hbody Hlf line l.
  assert (E : sub_block_comments line = l)
    by now apply sub_block_comments_first.
  split; [exact E|].
  rewrite filter_lines_plain.
  - cbv zeta. now rewrite E.
  - replace line with ((pre ++ SLASH :: STAR :: body) ++ [STAR; SLASH] ++ post)
      by (unfold line; rewrite <- app_assoc; reflexivity).
    rewrite (contains_app [STAR; SLASH]). apply andb_false_r.
Qed.

(** C5, amended (preserved lines).  A line that the filter keeps under the
    preservation rule (after its same-line block comments are replaced, it
    matches the query marker or holds the segment token) is emitted without
    the line-comment rule applied; and when it holds no terminator
    character, its scan cuts no statement, from whatever state: the
    statements are the same before and after it and the line is appended to
    the buffer. *)
Theorem preserved_line_inert :
  forall line rest,
    let l := sub_block_comments line in
    contains [SLASH; STAR] line && negb (contains [STAR; SLASH] line) = false ->
    match_qmarker l || search_segment l = true ->
    filter_lines false (line :: rest) = l :: filter_lines false rest /\
    (~ In SEMI l ->
     forall st,
       stmts (scan st l) = stmts st /\ buff (scan st l) = buff st ++ l).
Proof.
  intros line rest l Hblock Hkeep. split.
  - rewrite filter_lines_plain by exact Hblock. cbv zeta. fold l.
    now rewrite Hkeep.
  - intros Hno st. now apply scan_no_semi.
Qed.

End Splitter_Claims.

(** ** Markers *)

Section Marker_Props.
Context {U : UnicodeData}.

Lemma ci_eq_q_upper q : ci_eq 113 q = true -> upper_char q = 81%N.
Proof.
  unfold ci_eq. change (113 =? 115)%N with false.
  change (113 =? 105)%N with false. change (113 =? 107)%N with false.
  rewrite !orb_false_r. intros H. apply orb_true_iff in H as [H|H];
    apply N.eqb_eq in H.
  - now subst.
  - assert (q = 81%N) as -> by lia. reflexivity.
Qed.

Lemma digit_upper d : is_digit d = true -> upper_char d = d.
Proof.
  unfold is_digit, decimal_value, upper_char, is_ascii, in_range.
  destruct (N.ltb_spec d 128), (N.leb_spec 97 d), (N.leb_spec d 122),
    (N.leb_spec 48 d), (N.leb_spec d 57); simpl;
    try reflexivity; try discriminate; lia.
Qed.

Lemma digits_upper ds :
  Forall (fun d => is_digit d = true) ds -> upper ds = ds.
Proof.
  induction 1 as [|d ds Hd _ IH]; [reflexivity|].
  unfold upper in *. simpl. now rewrite (digit_upper d Hd), IH.
Qed.

Lemma filter_digits ds :
  Forall (fun d => is_digit d = true) ds -> List.filter is_digit ds = ds.
Proof.
  induction 1 as [|d ds Hd _ IH]; [reflexivity|].
  simpl. now rewrite Hd, IH.
Qed.

Lemma int_digits_ok ds : forall acc,
  Forall (fun d => is_digit d = true) ds -> exists n, int_digits acc ds = Ok n.
Proof.
  induction ds as [|d ds IH]; intros acc H; [now eexists|].
  inversion H as [|? ? Hd Hds]; subst. simpl.
  unfold is_digit in Hd. destruct (decimal_value d); [|discriminate].
  now apply IH.
Qed.

(** [int] on a string that is not too long is the value of its digits. *)
Lemma py_int_digits s :
  s <> [] -> length s <= int_max_str_digits -> py_int s = int_digits 0 s.
Proof.
  intros Hne Hlen. destruct s as [|c s]; [contradiction|].
  unfold py_int. now rewrite (proj2 (Nat.ltb_ge _ _) Hlen).
Qed.

Lemma py_int_long s :
  int_max_str_digits < length s -> py_int s = Raise ValueError.
Proof.
  intros Hlen. destruct s as [|c s]; [reflexivity|].
  unfold py_int. now rewrite (proj2 (Nat.ltb_lt _ _) Hlen).
Qed.

Lemma py_int_Ok s n :
  py_int s = Ok n -> length s <= int_max_str_digits /\ int_digits 0 s = Ok n.
Proof.
  destruct (Nat.ltb_spec int_max_str_digits (length s)) as [Hl|Hl].
  - now rewrite (py_int_long s Hl).
  - destruct s as [|c s]; [discriminate|].
    rewrite py_int_digits by (discriminate || exact Hl). now split.
Qed.

Lemma marker_wf_int m :
  marker_wf m -> short m = true ->
  exists n, py_int (List.filter is_digit (qkey m)) = Ok n.
Proof.
  intros (ds & E & Hne & Hds) Hshort. unfold short in Hshort.
  apply Nat.leb_le in Hshort. rewrite E in *.
  change (List.filter is_digit (81%N :: ds)) with (List.filter is_digit ds)
    in *.
  rewrite (filter_digits ds Hds) in *.
  rewrite (py_int_digits ds Hne Hshort). now apply int_digits_ok.
Qed.

Lemma q_pat_at_group1 s g1 g0 :
  q_pat_at s = Some (g1, g0) ->
  exists q ds, g1 = q :: ds /\ ci_eq 113 q = true /\ ds <> [] /\
               Forall (fun d => is_digit d = true) ds.
Proof.
  unfold q_pat_at.
  destruct (lstrip_by is_space s) as [|d1 [|d2 s2]]; try discriminate.
  destruct (_ && _); [|discriminate].
  destruct (lstrip_by is_space s2) as [|q s4]; [discriminate|].
  destruct (ci_eq 113 q) eqn:Hq; [|discriminate].
  destruct (prefix_by is_digit s4) as [|d ds] eqn:Hds; [discriminate|].
  simpl. intros [= <- _]. exists q, (d :: ds).
  repeat split; [exact Hq|discriminate|].
  rewrite <- Hds. apply prefix_by_Forall.
Qed.

Lemma q_finditer_wf s : forall pos skip bol,
  Forall marker_wf (q_finditer pos skip bol s).
Proof.
  induction s as [|c r IH]; intros pos skip bol; [constructor|].
  simpl. destruct skip as [|k]; [|apply IH].
  destruct (if bol then q_pat_at (c :: r) else None) as [[g1 g0]|] eqn:E;
    [|apply IH].
  constructor; [|apply IH].
  destruct bol; [|discriminate].
  destruct (q_pat_at_group1 _ _ _ E) as (q & ds & -> & Hq & Hne & Hds).
  exists ds. simpl. unfold upper. simpl.
  rewrite (ci_eq_q_upper q Hq). fold (upper ds).
  now rewrite (digits_upper ds Hds).
Qed.

Lemma q_positions_wf raw : Forall marker_wf (q_positions raw).
Proof. apply q_finditer_wf. Qed.

(** For a marker of [q_pat] with a number that [int] converts the loop
    body raises nothing. *)
Lemma query_entry_ok m g0 :
  marker_wf m -> short m = true ->
  exists n, py_int (List.filter is_digit (qkey m)) = Ok n /\
    query_entry m g0 =
      Ok (81%N :: format_02d n,
          {| label := strip (lstrip_by (fun c => (c =? DASH)%N)
                               (strip (label_line m)));
             sql := rstrip_by (fun c => (c =? SEMI)%N) (strip g0) |}).
Proof.
  intros Hwf Hshort. destruct (marker_wf_int m Hwf Hshort) as [n Hn].
  exists n. split; [exact Hn|]. unfold query_entry. now rewrite Hn.
Qed.

(** With a longer number it raises. *)
Lemma query_entry_long m g0 :
  short m = false -> query_entry m g0 = Raise ValueError.
Proof.
  intros Hshort. unfold short in Hshort. apply Nat.leb_gt in Hshort.
  unfold query_entry. now rewrite (py_int_long _ Hshort).
Qed.

Lemma converts_suffix raw ms1 : forall ms,
  converts raw (ms1 ++ ms) = true -> converts raw ms = true.
Proof.
  induction ms1 as [|m1 ms1 IH]; intros ms H; [exact H|].
  apply IH. simpl in H. destruct (search_query _); [|exact H].
  now apply andb_true_iff in H as [_ H].
Qed.

Lemma converts_head raw m rest g0 :
  converts raw (m :: rest) = true ->
  search_query (block_of raw m rest) = Some g0 -> short m = true.
Proof.
  intros H Hs. simpl in H. rewrite Hs in H.
  now apply andb_true_iff in H as [H _].
Qed.

Lemma converts_tail raw m rest :
  converts raw (m :: rest) = true -> converts raw rest = true.
Proof. apply (converts_suffix raw [m]). Qed.


(** What the loop over the markers returns. *)
Lemma collect_queries_spec raw ms : forall queries,
  Forall marker_wf ms ->
  collect_queries raw ms queries =
    if converts raw ms
    then Ok (fold_left store (entries raw ms) queries)
    else Raise ValueError.
Proof.
  induction ms as [|m rest IH]; intros queries Hwf; [reflexivity|].
  inversion Hwf as [|? ? Hm Hrest]; subst. simpl.
  destruct (search_query (block_of raw m rest)) as [g0|]; [|now apply IH].
  destruct (short m) eqn:Hshort.
  - destruct (query_entry_ok m g0 Hm Hshort) as (n & _ & ->). simpl.
    now apply IH.
  - now rewrite (query_entry_long m g0 Hshort).
Qed.

Lemma entries_elem raw ms k e :
  Forall marker_wf ms -> converts raw ms = true ->
  In (k, e) (entries raw ms) <->
  exists ms1 m ms2 g0,
    ms = ms1 ++ m :: ms2 /\
    search_query (block_of raw m ms2) = Some g0 /\
    query_entry m g0 = Ok (k, e).
Proof.
  induction ms as [|m rest IH]; intros Hwf Hc.
  - simpl. split; [contradiction|].
    intros (ms1 & m & ms2 & g0 & H & _). now destruct ms1.
  - inversion Hwf as [|? ? Hm Hrest]; subst.
    specialize (IH Hrest (converts_tail _ _ _ Hc)). simpl.
    destruct (search_query (block_of raw m rest)) as [g0|] eqn:Hs.
    + destruct (query_entry_ok m g0 Hm (converts_head _ _ _ _ Hc Hs))
        as (n & _ & Hq).
      rewrite Hq. split.
      * intros [H | H].
        -- exists [], m, rest, g0. split; [reflexivity|].
           split; [exact Hs|]. now rewrite Hq, H.
        -- apply IH in H as (ms1 & m' & ms2 & g0' & -> & H1 & H2).
           exists (m :: ms1), m', ms2, g0'. now split.
      * intros (ms1 & m' & ms2 & g0' & Heq & H1 & H2).
        destruct ms1 as [|m1 ms1]; simpl in Heq; injection Heq as <- ->.
        -- left. rewrite Hs in H1. injection H1 as <-.
           rewrite Hq in H2. congruence.
        -- right. apply IH. now exists ms1, m', ms2, g0'.
    + rewrite IH. split.
      * intros (ms1 & m' & ms2 & g0' & -> & H1 & H2).
        exists (m :: ms1), m', ms2, g0'. now split.
      * intros (ms1 & m' & ms2 & g0' & Heq & H1 & H2).
        destruct ms1 as [|m1 ms1]; simpl in Heq; injection Heq as <- ->.
        -- rewrite Hs in H1. discriminate.
        -- now exists ms1, m', ms2, g0'.
Qed.



Lemma store_dom l : forall queries : gmap pystr entry,
  forall k, k ∈ dom (fold_left store l queries) <->
            k ∈ dom queries \/ In k (List.map fst l).
Proof.
  induction l as [|[k' e'] l IH]; intros queries k.
  - simpl. tauto.
  - simpl. rewrite IH. unfold store. simpl. rewrite dom_insert.
    rewrite elem_of_union, elem_of_singleton. intuition congruence.
Qed.

Lemma store_forall (P : pystr -> entry -> Prop) l :
  forall queries : gmap pystr entry,
  map_Forall P queries -> Forall (fun kv => P kv.1 kv.2) l ->
  map_Forall P (fold_left store l queries).
Proof.
  induction l as [|[k e] l IH]; intros queries Hq Hl; [exact Hq|].
  inversion Hl; subst. simpl. apply IH; [|assumption].
  unfold store. simpl. now apply map_Forall_insert_2.
Qed.

End Marker_Props.

(** ** Decimal numbers *)

Lemma dec_digits_acc f : forall n acc,
  dec_digits f n acc = dec_digits f n [] ++ acc.
Proof.
  induction f as [|f IH]; intros n acc; [reflexivity|].
  simpl. destruct (n <? 10)%N; [reflexivity|].
  rewrite IH. rewrite (IH _ [_]). now rewrite <- app_assoc.
Qed.

Lemma dec_digits_small f n :
  (n < 10)%N -> dec_digits (S f) n [] = [(48 + n)%N].
Proof.
  intros H. simpl. apply N.ltb_lt in H as H'. rewrite H'.
  now rewrite N.mod_small.
Qed.

Lemma dec_digits_big f n :
  (10 <= n)%N ->
  dec_digits (S f) n [] = dec_digits f (n / 10)%N [] ++ [(48 + n mod 10)%N].
Proof.
  intros H. simpl. apply N.ltb_ge in H as H'. rewrite H'.
  apply dec_digits_acc.
Qed.

Lemma py_str_of_int_small n : (n < 10)%N -> py_str_of_int n = [(48 + n)%N].
Proof. apply dec_digits_small. Qed.

Lemma py_str_of_int_big n : (10 <= n)%N -> 2 <= length (py_str_of_int n).
Proof.
  intros H. unfold py_str_of_int. rewrite dec_digits_big by exact H.
  rewrite length_app. simpl.
  destruct (N.to_nat (N.size n)) as [|f] eqn:E.
  - assert (N.size n = 0%N) as E0 by lia.
    pose proof (N.size_gt n) as Hs. rewrite E0 in Hs. simpl in Hs. lia.
  - simpl. destruct (_ <? _)%N; simpl; [lia|].
    rewrite dec_digits_acc, length_app. simpl. lia.
Qed.

Lemma format_02d_small n :
  (n < 10)%N -> format_02d n = [48%N; (48 + n)%N].
Proof.
  intros H. unfold format_02d. now rewrite py_str_of_int_small.
Qed.

Lemma format_02d_big n :
  (10 <= n)%N -> format_02d n = py_str_of_int n.
Proof.
  intros H. unfold format_02d. pose proof (py_str_of_int_big n H) as Hl.
  replace (2 - length (py_str_of_int n)) with 0 by lia. reflexivity.
Qed.

Section Number_Props.
Context {U : UnicodeData}.

Lemma decimal_value_digit d :
  (d < 10)%N -> decimal_value (48 + d) = Some d.
Proof.
  intros H. unfold decimal_value, is_ascii, in_range.
  destruct (N.ltb_spec (48 + d) 128); [|lia].
  destruct (N.leb_spec 48 (48 + d)); [|lia].
  destruct (N.leb_spec (48 + d) 57); [|lia].
  simpl. f_equal. lia.
Qed.

Lemma int_digits_app x : forall acc y,
  int_digits acc (x ++ y) =
    match int_digits acc x with
    | Ok a => int_digits a y
    | Raise e => Raise e
    end.
Proof.
  induction x as [|c x IH]; intros acc y; [reflexivity|].
  simpl. destruct (decimal_value c); [apply IH|reflexivity].
Qed.

Lemma int_digits_dec f : forall n,
  (n < 2 ^ N.of_nat f)%N -> int_digits 0 (dec_digits f n []) = Ok n.
Proof.
  induction f as [|f IH]; intros n Hn.
  - simpl in *. f_equal. lia.
  - destruct (N.ltb_spec n 10) as [Hs|Hb].
    + rewrite dec_digits_small by exact Hs. simpl.
      rewrite decimal_value_digit by exact Hs. reflexivity.
    + rewrite dec_digits_big by exact Hb.
      rewrite int_digits_app, IH.
      * simpl. rewrite decimal_value_digit by (apply N.mod_lt; lia).
        f_equal. pose proof (N.div_mod n 10). lia.
      * apply N.Div0.div_lt_upper_bound.
        rewrite Nat2N.inj_succ, N.pow_succ_r' in Hn. lia.
Qed.

(** Reading back what [str] writes. *)
Lemma int_digits_str n : int_digits 0 (py_str_of_int n) = Ok n.
Proof.
  unfold py_str_of_int. apply int_digits_dec.
  rewrite Nat2N.inj_succ, N2Nat.id, N.pow_succ_r'.
  pose proof (N.size_gt n). lia.
Qed.

Lemma int_digits_format n : int_digits 0 (format_02d n) = Ok n.
Proof.
  destruct (N.ltb_spec n 10) as [Hs|Hb].
  - rewrite format_02d_small by exact Hs.
    simpl. rewrite decimal_value_digit by exact Hs. reflexivity.
  - rewrite format_02d_big by exact Hb. apply int_digits_str.
Qed.



End Number_Props.

(** ** The limit on the digits, in [format] *)

(** [str] writes a number below [10 ^ k] with [k] digits at most. *)
Lemma dec_digits_length f : forall n acc k,
  (n < 10 ^ N.of_nat k)%N -> 1 <= k ->
  length (dec_digits f n acc) <= k + length acc.
Proof.
  induction f as [|f IH]; intros n acc k Hn Hk; [simpl; lia|].
  simpl. destruct (N.ltb_spec n 10) as [Hs|Hb]; [simpl; lia|].
  destruct k as [|[|k]]; [lia|simpl in Hn; lia|].
  etransitivity.
  - apply (IH (n / 10)%N _ (S k)); [|lia].
    apply N.Div0.div_lt_upper_bound.
    rewrite (Nat2N.inj_succ (S k)), N.pow_succ_r' in Hn. exact Hn.
  - simpl. lia.
Qed.

Section Format_Limit.
Context {U : UnicodeData}.
(** The decimal value of a character is one of the ten digits, as it is in
    the Unicode database. *)
Hypothesis decimal_small :
  forall c d, decimal_value c = Some d -> (d < 10)%N.

Lemma int_digits_bound s : forall acc n,
  int_digits acc s = Ok n -> (n < (acc + 1) * 10 ^ N.of_nat (length s))%N.
Proof using decimal_small.
  induction s as [|c r IH]; intros acc n H.
  - simpl in *. injection H as <-. lia.
  - simpl in H. destruct (decimal_value c) as [d|] eqn:Hd; [|discriminate].
    apply decimal_small in Hd. apply IH in H.
    cbn [length]. rewrite Nat2N.inj_succ, N.pow_succ_r'.
    set (p := (10 ^ N.of_nat (length r))%N) in *. nia.
Qed.

(** The [format] of the loop meets no number that the conversion to a
    string refuses: a number that [int] returned has no more digits than
    the string it was read from, so it is within the limit of the
    conversion, which is the limit of [int]. *)
Lemma format_within_limit s n :
  py_int s = Ok n -> length (py_str_of_int n) <= int_max_str_digits.
Proof using decimal_small.
  intros H. destruct s as [|c r]; [discriminate|].
  apply py_int_Ok in H as [Hlen H]. apply int_digits_bound in H.
  etransitivity; [|exact Hlen].
  unfold py_str_of_int.
  etransitivity; [apply (dec_digits_length _ n [] (length (c :: r)))|].
  - rewrite N.add_0_l, N.mul_1_l in H. exact H.
  - simpl. lia.
  - simpl. lia.
Qed.

End Format_Limit.

(** ** The query pattern *)

Lemma match_ci_spec lit : forall s m rest,
  match_ci lit s = Some (m, rest) -> s = m ++ rest /\ ci_match lit m.
Proof.
  induction lit as [|p lit IH]; intros s m rest H.
  - simpl in H. injection H as <- <-. split; [reflexivity|constructor].
  - destruct s as [|c s]; [discriminate|]. simpl in H.
    destruct (ci_eq p c) eqn:Hc; [|discriminate].
    destruct (match_ci lit s) as [[m' rest']|] eqn:E; [|discriminate].
    injection H as <- <-. destruct (IH _ _ _ E) as [-> Hm].
    split; [reflexivity|]. now constructor.
Qed.

Lemma match_ci_complete lit : forall m rest,
  ci_match lit m -> match_ci lit (m ++ rest) = Some (m, rest).
Proof.
  induction lit as [|p lit IH]; intros m rest H; inversion H; subst.
  - reflexivity.
  - simpl. rewrite H2. now rewrite IH.
Qed.

Lemma upto_semi_spec s : forall m,
  upto_semi s = Some m ->
  exists body post, m = body ++ [SEMI] /\ ~ In SEMI body /\ s = m ++ post.
Proof.
  induction s as [|c s IH]; intros m H; [discriminate|]. simpl in H.
  destruct (N.eqb_spec c SEMI) as [->|Hc].
  - injection H as <-. exists [], s. now split.
  - destruct (upto_semi s) as [m'|]; [|discriminate].
    injection H as <-.
    destruct (IH m' eq_refl) as (body & post & -> & Hno & ->).
    exists (c :: body), post. simpl. split; [reflexivity|].
    split; [|reflexivity]. intros [H|H]; [congruence|contradiction].
Qed.

Lemma upto_semi_complete body post :
  ~ In SEMI body -> upto_semi (body ++ SEMI :: post) = Some (body ++ [SEMI]).
Proof.
  induction body as [|c body IH]; intros Hno; [reflexivity|].
  simpl. destruct (N.eqb_spec c SEMI) as [->|_].
  - exfalso. apply Hno. now left.
  - rewrite IH; [reflexivity|]. intros H. apply Hno. now right.
Qed.

(** The lazy run is the shortest one: [k] matches after it and after no
    shorter run. *)
Lemma lazy_then_spec k s : forall m,
  lazy_then k s = Some m ->
  exists skipped s' m',
    s = skipped ++ s' /\ k s' = Some m' /\ m = skipped ++ m' /\
    forall a b, skipped = a ++ b -> b <> [] -> k (b ++ s') = None.
Proof.
  induction s as [|c s IH]; intros m H; simpl in H.
  - destruct (k []) as [m'|] eqn:E; [|discriminate]. injection H as <-.
    exists [], [], m'. repeat split; try assumption.
    intros a b Hab Hb. now destruct a, b.
  - destruct (k (c :: s)) as [m'|] eqn:E.
    + injection H as <-. exists [], (c :: s), m'.
      repeat split; try assumption.
      intros a b Hab Hb. now destruct a, b.
    + destruct (lazy_then k s) as [m1|]; [|discriminate].
      injection H as <-.
      destruct (IH m1 eq_refl) as (sk & s' & m' & -> & Hk & -> & Hmin).
      exists (c :: sk), s', m'. repeat split; try assumption.
      intros a b Hab Hb. destruct a as [|a0 a].
      * simpl in Hab. subst b. exact E.
      * injection Hab as <- Hab. now apply (Hmin a b).
Qed.

Section Query_Props.
Context {U : UnicodeData}.

Lemma select_tail_spec s m :
  select_tail s = Some m ->
  exists kw body post,
    m = kw ++ body ++ [SEMI] /\ s = m ++ post /\
    ci_match (str "select") kw /\ ~ In SEMI body /\
    word_boundary (last kw) (head (body ++ [SEMI])) = true.
Proof.
  unfold select_tail.
  destruct (match_ci (str "select") s) as [[kw rest]|] eqn:E; [|discriminate].
  destruct (match_ci_spec _ _ _ _ E) as [-> Hkw].
  destruct (word_boundary (last kw) (head rest)) eqn:Hb; [|discriminate].
  destruct (upto_semi rest) as [m'|] eqn:Hu; [|discriminate].
  intros [= <-].
  destruct (upto_semi_spec rest m' Hu) as (body & post & -> & Hno & ->).
  exists kw, body, post. repeat split; try assumption.
  - now rewrite <- !app_assoc.
  - rewrite <- Hb. f_equal. now destruct body.
Qed.

Lemma with_tail_spec s m :
  with_tail s = Some m ->
  exists w mid sel body post,
    m = w ++ mid ++ sel ++ body ++ [SEMI] /\ s = m ++ post /\
    ci_match (str "with") w /\ mid <> [] /\
    ci_match (str "select") sel /\ ~ In SEMI body /\
    word_boundary (last w) (head mid) = true /\
    word_boundary (last sel) (head (body ++ [SEMI])) = true /\
    (forall a b, mid = a ++ b -> a <> [] -> b <> [] ->
       select_tail (b ++ sel ++ body ++ SEMI :: post) = None).
Proof.
  unfold with_tail.
  destruct (match_ci (str "with") s) as [[w rest]|] eqn:E; [|discriminate].
  destruct (match_ci_spec _ _ _ _ E) as [-> Hw].
  destruct (word_boundary (last w) (head rest)) eqn:Hb; [|discriminate].
  destruct rest as [|c r]; [discriminate|].
  destruct (lazy_then select_tail r) as [m1|] eqn:Hl; [|discriminate].
  intros [= <-].
  destruct (lazy_then_spec _ _ _ Hl) as (sk & s' & m' & -> & Hk & -> & Hmin).
  destruct (select_tail_spec _ _ Hk)
    as (sel & body & post & -> & -> & Hsel & Hno & Hb2).
  exists w, (c :: sk), sel, body, post.
  repeat split; try assumption; try discriminate.
  - simpl. rewrite <- ?app_assoc. simpl. now rewrite <- ?app_assoc.
  - intros a b Hab Ha Hbn. destruct a as [|a0 a]; [contradiction|].
    injection Hab as _ Hab.
    specialize (Hmin a b Hab Hbn).
    rewrite <- Hmin. f_equal. rewrite <- ?app_assoc. simpl.
    now rewrite <- ?app_assoc.
Qed.

(** A match of the query pattern starts with the keyword of one of its two
    alternatives and ends with the first terminator behind the SELECT. *)
Lemma query_at_spec prev s m :
  query_at prev s = Some m ->
  word_boundary prev (head s) = true /\
  (select_tail s = Some m \/ (select_tail s = None /\ with_tail s = Some m)).
Proof.
  unfold query_at. destruct (word_boundary prev (head s)); [|discriminate].
  destruct (select_tail s) as [m'|]; intros H; split; auto.
Qed.

Lemma search_query_from_spec s : forall prev m,
  search_query_from prev s = Some m ->
  exists pre post,
    s = pre ++ post /\
    query_at (match last pre with Some c => Some c | None => prev end) post
      = Some m /\
    (forall a b, pre = a ++ b -> b <> [] ->
       query_at (match last a with Some c => Some c | None => prev end)
                (b ++ post) = None).
Proof.
  induction s as [|c s IH]; intros prev m H; simpl in H.
  - destruct (query_at prev []) eqn:E; [|discriminate]. injection H as <-.
    exists [], []. repeat split; try assumption.
    intros a b Hab Hb. now destruct a, b.
  - destruct (query_at prev (c :: s)) as [m'|] eqn:E.
    + injection H as <-. exists [], (c :: s). repeat split; try assumption.
      intros a b Hab Hb. now destruct a, b.
    + destruct (IH _ _ H) as (pre & post & -> & Hq & Hmin).
      exists (c :: pre), post. split; [reflexivity|]. split.
      * destruct pre as [|p pre] using rev_ind; [exact Hq|].
        clear IHpre. change (c :: pre ++ [p]) with ((c :: pre) ++ [p]).
        rewrite last_snoc. now rewrite last_snoc in Hq.
      * intros a b Hab Hb. destruct a as [|a0 a].
        -- simpl in Hab. subst b. exact E.
        -- injection Hab as <- Hab. specialize (Hmin a b Hab Hb).
           destruct a as [|a1 a] using rev_ind; [exact Hmin|].
           clear IHa. change (c :: a ++ [a1]) with ((c :: a) ++ [a1]).
           rewrite last_snoc. now rewrite last_snoc in Hmin.
Qed.

End Query_Props.

(** ** The phase marker *)

Section Segment_Props.
Context {U : UnicodeData}.

Lemma prev_of_cons prev c pre : prev_of (Some c) pre = prev_of prev (c :: pre).
Proof.
  unfold prev_of. destruct pre as [|p pre] using rev_ind; [reflexivity|].
  change (c :: pre ++ [p]) with ((c :: pre) ++ [p]). now rewrite !last_snoc.
Qed.

Lemma search_segment1_from_spec s : forall prev,
  search_segment1_from prev s = true <->
  exists pre rest, s = pre ++ rest /\ segment1_at (prev_of prev pre) rest = true.
Proof.
  induction s as [|c s IH]; intros prev; simpl.
  - rewrite orb_false_r. split.
    + intros H. now exists [], [].
    + intros (pre & rest & E & H). symmetry in E.
      apply app_eq_nil in E as [-> ->]. exact H.
  - rewrite orb_true_iff, IH. split.
    + intros [H | (pre & rest & -> & H)].
      * now exists [], (c :: s).
      * exists (c :: pre), rest. split; [reflexivity|].
        now rewrite <- (prev_of_cons prev).
    + intros (pre & rest & E & H). destruct pre as [|p pre].
      * left. simpl in E. subst rest. exact H.
      * injection E as <- ->. right. exists pre, rest.
        split; [reflexivity|]. now rewrite (prev_of_cons prev).
Qed.

Lemma lstrip_by_spec p s c r :
  lstrip_by p s = c :: r ->
  exists ws, s = ws ++ c :: r /\ Forall (fun a => p a = true) ws.
Proof.
  intros H. exists (prefix_by p s). split; [|apply prefix_by_Forall].
  rewrite <- H. apply lstrip_by_split.
Qed.

Lemma ci_match_head lit m :
  ci_match lit m -> lit <> [] ->
  m <> [] /\ forall rest, head (m ++ rest) = head m.
Proof.
  intros H Hne. destruct H; [contradiction|]. split; [discriminate|].
  reflexivity.
Qed.

(** The token that [extract_setup_and_queries] looks for in a statement:
    the word Segment in any case of its letters, at a word boundary, then
    white space or none, then the digit 1 at a word boundary. *)
Lemma search_segment1_token s :
  search_segment1 s = true <->
  exists pre kw ws post,
    s = pre ++ kw ++ ws ++ 49%N :: post /\
    ci_match (str "segment") kw /\
    Forall (fun c => is_space c = true) ws /\
    word_boundary (last pre) (head kw) = true /\
    word_boundary (Some 49%N) (head post) = true.
Proof.
  unfold search_segment1. rewrite search_segment1_from_spec. split.
  - intros (pre & rest & -> & H). unfold segment1_at in H.
    apply andb_true_iff in H as [Hb H].
    destruct (match_ci (str "segment") rest) as [[kw rest']|] eqn:E;
      [|discriminate].
    destruct (match_ci_spec _ _ _ _ E) as [-> Hkw].
    destruct (lstrip_by is_space rest') as [|one r] eqn:El; [discriminate|].
    apply andb_true_iff in H as [H1 H2]. apply N.eqb_eq in H1. subst one.
    destruct (lstrip_by_spec _ _ _ _ El) as (ws & -> & Hws).
    exists pre, kw, ws, r. repeat split; try assumption.
    destruct (ci_match_head _ _ Hkw ltac:(discriminate)) as (_ & Hh).
    rewrite Hh in Hb. unfold prev_of in Hb.
    now destruct (last pre).
  - intros (pre & kw & ws & post & -> & Hkw & Hws & Hb1 & Hb2).
    exists pre, (kw ++ ws ++ 49%N :: post). split; [reflexivity|].
    unfold segment1_at.
    destruct (ci_match_head _ _ Hkw ltac:(discriminate)) as (_ & Hh).
    rewrite Hh. unfold prev_of.
    replace (match last pre with Some c => Some c | None => None end)
      with (last pre) by now destruct (last pre).
    rewrite Hb1. cbn [andb].
    rewrite (match_ci_complete _ _ _ Hkw).
    rewrite lstrip_by_app_all by exact Hws. simpl.
    exact Hb2.
Qed.

Lemma find_segment1_spec l : forall i,
  match find_segment1 i l with
  | None => Forall (fun s => search_segment1 s = false) l
  | Some j =>
      exists k s r, j = i + k /\ l = take k l ++ s :: r /\
        Forall (fun s => search_segment1 s = false) (take k l) /\
        search_segment1 s = true
  end.
Proof.
  induction l as [|s l IH]; intros i; simpl; [constructor|].
  destruct (search_segment1 s) eqn:Hs.
  - exists 0, s, l. repeat split; [lia|constructor|exact Hs].
  - specialize (IH (S i)). destruct (find_segment1 (S i) l) as [j|].
    + destruct IH as (k & s' & r & -> & El & Hall & Hs').
      exists (S k), s', r. split; [lia|]. simpl. split; [now f_equal|].
      split; [now constructor|exact Hs'].
    + now constructor.
Qed.

(** The setup statements are the statements before the first one that holds
    the token, and all of them when none does. *)
Lemma setup_statements_spec l :
  exists rest,
    l = setup_statements l ++ rest /\
    Forall (fun s => search_segment1 s = false) (setup_statements l) /\
    (rest = [] \/ exists s r, rest = s :: r /\ search_segment1 s = true).
Proof.
  unfold setup_statements. pose proof (find_segment1_spec l 0) as H.
  destruct (find_segment1 0 l) as [j|].
  - destruct H as (k & s & r & -> & El & Hall & Hs). simpl.
    exists (s :: r). split; [exact El|]. split; [exact Hall|].
    right. now exists s, r.
  - exists []. split; [now rewrite app_nil_r|]. split; [exact H|now left].
Qed.

End Segment_Props.

(** ** The extracted statement *)

Lemma keyword_head_char c :
  ci_eq 115 c = true \/ ci_eq 119 c = true ->
  is_space c = false /\ (c =? SEMI)%N = false.
Proof.
  unfold ci_eq.
  change (115 =? 115)%N with true. change (115 =? 105)%N with false.
  change (115 =? 107)%N with false. change (119 =? 115)%N with false.
  change (119 =? 105)%N with false. change (119 =? 107)%N with false.
  cbn [andb]. rewrite !orb_false_r.
  intros [H|H]; repeat (apply orb_true_iff in H as [H|H]);
    apply N.eqb_eq in H;
    try (assert (c = 83%N) as -> by lia); try (assert (c = 87%N) as -> by lia);
    subst; split; reflexivity.
Qed.

Lemma strip_fix s a b :
  head s = Some a -> is_space a = false ->
  last s = Some b -> is_space b = false -> strip s = s.
Proof.
  intros Ha Hsa Hb Hsb. unfold strip.
  rewrite (lstrip_by_fix _ _ a Ha Hsa).
  apply last_Some in Hb as [s0 ->]. now rewrite rstrip_by_snoc, Hsb.
Qed.

Lemma rstrip_by_fix p s :
  (forall c, last s = Some c -> p c = false) -> rstrip_by p s = s.
Proof.
  destruct s as [|c s] using rev_ind; [reflexivity|]. intros H.
  rewrite rstrip_by_snoc, (H c); [reflexivity|apply last_snoc].
Qed.

Lemma rstrip_by_head p s c t :
  s = c :: t -> p c = false -> exists t', rstrip_by p s = c :: t'.
Proof.
  intros -> Hc. exists (rstrip_by p t).
  now apply (rstrip_by_app_keep p [] c t).
Qed.

Section Sql_Props.
Context {U : UnicodeData}.

Lemma ci_match_cons lit m p :
  ci_match (p :: lit) m -> exists c t, m = c :: t /\ ci_eq p c = true.
Proof. intros H. inversion H; subst. now eexists _, _. Qed.

(** A match of the query pattern starts with the S of SELECT or the W of
    WITH and ends with the terminator. *)
Lemma search_query_shape block g0 :
  search_query block = Some g0 ->
  exists c t, g0 = c :: t /\
    (ci_eq 115 c = true \/ ci_eq 119 c = true) /\ last g0 = Some SEMI.
Proof.
  intros H. apply search_query_from_spec in H as (pre & post & _ & H & _).
  apply query_at_spec in H as [_ [H | [_ H]]].
  - apply select_tail_spec in H as (kw & body & post' & -> & _ & Hkw & _).
    destruct (ci_match_cons _ _ _ Hkw) as (c & t & -> & Hc).
    exists c, (t ++ body ++ [SEMI]). split; [reflexivity|]. split; [now left|].
    rewrite app_assoc. apply last_snoc.
  - apply with_tail_spec in H
      as (w & mid & sel & body & post' & -> & _ & Hw & _).
    destruct (ci_match_cons _ _ _ Hw) as (c & t & -> & Hc).
    exists c, (t ++ mid ++ sel ++ body ++ [SEMI]).
    split; [reflexivity|]. split; [now right|].
    rewrite !app_assoc. apply last_snoc.
Qed.

(** The statement stored for a match: not empty, no white space in front,
    no terminator at the end. *)
Lemma sql_shape block g0 :
  search_query block = Some g0 ->
  let sql := rstrip_by (fun c => (c =? SEMI)%N) (strip g0) in
  sql <> [] /\ lstrip_by is_space sql = sql /\ last sql <> Some SEMI.
Proof.
  intros H sql.
  destruct (search_query_shape _ _ H) as (c & t & -> & Hc & Hl).
  destruct (keyword_head_char c Hc) as [Hsp Hsemi].
  assert (Hstrip : strip (c :: t) = c :: t)
    by now apply (strip_fix _ c SEMI).
  destruct (rstrip_by_head (fun c => (c =? SEMI)%N) (c :: t) c t eq_refl Hsemi)
    as [t' E].
  unfold sql. rewrite Hstrip. split; [now rewrite E|]. split.
  - rewrite E. simpl. now rewrite Hsp.
  - intros Hlast. apply rstrip_by_last in Hlast. discriminate.
Qed.

End Sql_Props.

(** * The claims on [extract_setup_and_queries] *)

Section Extractor_Claims.
Context {U : UnicodeData}.

(** What the extractor returns: the setup prefix and the entries of the
    markers of [q_pat], stored in order, or [ValueError] when a marker with
    a match has a number of more digits than [int] converts. *)
Lemma extract_spec raw :
  extract_setup_and_queries raw =
    if converts raw (q_positions raw)
    then Ok (setup_statements (split_mysql_statements raw),
             fold_left store (entries raw (q_positions raw)) ∅)
    else Raise ValueError.
Proof.
  unfold extract_setup_and_queries.
  rewrite (collect_queries_spec raw _ ∅ (q_positions_wf raw)).
  now destruct (converts raw (q_positions raw)).
Qed.

Lemma extract_Ok raw setup queries :
  extract_setup_and_queries raw = Ok (setup, queries) ->
  converts raw (q_positions raw) = true /\
  setup = setup_statements (split_mysql_statements raw) /\
  queries = fold_left store (entries raw (q_positions raw)) ∅.
Proof.
  rewrite extract_spec. destruct (converts raw (q_positions raw));
    [|discriminate].
  intros [= <- <-]. now repeat split.
Qed.

Lemma setup_statements_incl l s : In s (setup_statements l) -> In s l.
Proof.
  destruct (setup_statements_spec l) as (rest & E & _). intros H.
  rewrite E. apply in_or_app. now left.
Qed.

Lemma entries_sql_shape raw ms :
  Forall marker_wf ms -> converts raw ms = true ->
  Forall (fun kv : pystr * entry =>
            sql kv.2 <> [] /\ lstrip_by is_space (sql kv.2) = sql kv.2 /\
            last (sql kv.2) <> Some SEMI) (entries raw ms).
Proof.
  intros Hwf Hc. apply Forall_forall. intros [k e] Hin.
  apply list_elem_of_In in Hin.
  apply (entries_elem raw ms k e Hwf Hc) in Hin
    as (ms1 & m & ms2 & g0 & -> & Hs & Hq).
  apply Forall_app in Hwf as [_ Hwf]. inversion Hwf as [|? ? Hm _]; subst.
  apply converts_suffix in Hc.
  destruct (query_entry_ok m g0 Hm (converts_head _ _ _ _ Hc Hs))
    as (n & _ & Hq').
  rewrite Hq' in Hq. injection Hq as _ <-. simpl. exact (sql_shape _ _ Hs).
Qed.

(** C4, amended (what a statement looks like).  Every statement that
    [split_mysql_statements] returns is not empty and is its own [strip],
    so it is no white space only and has none at either end; it ends with
    the terminator only when it is the last statement of the result and the
    scan reached the end of the text inside a string, a quote flag still
    set.  Whenever the extractor returns, its setup statements are
    statements of the splitter, and every [sql] it stores is not empty,
    starts with no white space and does not end with the terminator. *)
Theorem statements_trimmed :
  forall raw,
    (forall s, In s (split_mysql_statements raw) ->
       s <> [] /\ strip s = s /\
       (last s = Some SEMI ->
          last (split_mysql_statements raw) = Some s /\
          quotes_closed (scan scan_init (filter_comments raw)) = false))
    /\ forall setup queries,
         extract_setup_and_queries raw = Ok (setup, queries) ->
         (forall s, In s setup -> In s (split_mysql_statements raw)) /\
         map_Forall (fun _ e =>
                       sql e <> [] /\ lstrip_by is_space (sql e) = sql e /\
                       last (sql e) <> Some SEMI) queries.
Proof.
  intros raw. split.
  - intros s Hin. unfold split_mysql_statements, split_text in *.
    apply scan_finish_spec; [|exact Hin].
    apply scan_inv_scan, scan_inv_init.
  - intros setup queries H. apply extract_Ok in H as (Hc & -> & ->). split.
    + apply setup_statements_incl.
    + apply (store_forall (fun _ e =>
               sql e <> [] /\ lstrip_by is_space (sql e) = sql e /\
               last (sql e) <> Some SEMI)).
      * apply map_Forall_empty.
      * apply entries_sql_shape; [apply q_positions_wf|exact Hc].
Qed.


Lemma entries_keys raw ms k :
  Forall marker_wf ms -> converts raw ms = true ->
  In k (List.map fst (entries raw ms)) <->
  exists ms1 m ms2 g0 n,
    ms = ms1 ++ m :: ms2 /\
    search_query (block_of raw m ms2) = Some g0 /\
    py_int (List.filter is_digit (qkey m)) = Ok n /\
    k = 81%N :: format_02d n.
Proof.
  intros Hwf Hc. rewrite in_map_iff. split.
  - intros ([k' e] & <- & Hin).
    apply (entries_elem raw ms k' e Hwf Hc) in Hin
      as (ms1 & m & ms2 & g0 & -> & Hs & Hq).
    apply Forall_app in Hwf as [_ Hwf]. inversion Hwf as [|? ? Hm _]; subst.
    apply converts_suffix in Hc.
    destruct (query_entry_ok m g0 Hm (converts_head _ _ _ _ Hc Hs))
      as (n & Hn & Hq').
    rewrite Hq' in Hq. injection Hq as <- _. now exists ms1, m, ms2, g0, n.
  - intros (ms1 & m & ms2 & g0 & n & -> & Hs & Hn & ->).
    pose proof Hwf as Hwf'.
    apply Forall_app in Hwf' as [_ Hwf']. inversion Hwf' as [|? ? Hm _]; subst.
    pose proof (converts_suffix _ _ _ Hc) as Hc'.
    destruct (query_entry_ok m g0 Hm (converts_head _ _ _ _ Hc' Hs))
      as (n' & Hn' & Hq).
    rewrite Hn in Hn'. injection Hn' as <-.
    eexists (_, _). split; [reflexivity|].
    apply (entries_elem raw (ms1 ++ m :: ms2) _ _ Hwf Hc).
    exists ms1, m, ms2, g0. split; [reflexivity|]. split; [exact Hs|exact Hq].
Qed.

(** C7 (markers without a query).  A marker whose block holds no match of
    the query pattern leaves the dictionary as it is, and the loop goes on
    with the next marker; no error is raised for it.  The keys of the
    dictionary that the extractor returns are exactly the normalized keys
    of the markers whose block holds a match: the letter Q and the number
    of the marker padded to two digits.  In [-- Q1 - nothing here],
    [-- Q2 - two], [SELECT 2;] only Q02 gets an entry. *)
Theorem marker_without_query_skipped :
  (forall raw m rest queries,
     search_query (block_of raw m rest) = None ->
     collect_queries raw (m :: rest) queries = collect_queries raw rest queries)
  /\ (forall raw setup queries,
        extract_setup_and_queries raw = Ok (setup, queries) ->
        forall k,
          k ∈ dom queries <->
          exists ms1 m ms2 g0 n,
            q_positions raw = ms1 ++ m :: ms2 /\
            search_query (block_of raw m ms2) = Some g0 /\
            py_int (List.filter is_digit (qkey m)) = Ok n /\
            k = 81%N :: format_02d n)
  /\ extract_setup_and_queries
       (str "-- Q1 - nothing here" ++ [LF] ++ str "-- Q2 - two" ++ [LF]
        ++ str "SELECT 2;")
     = Ok ([str "-- Q1 - nothing here" ++ [LF] ++ str "-- Q2 - two" ++ [LF]
            ++ str "SELECT 2"],
           {[ str "Q02" := {| label := str "Q2 - two"; sql := str "SELECT 2" |} ]}).
Proof.
  split; [|split; [|vm_compute; reflexivity]].
  - intros raw m rest queries H. simpl. now rewrite H.
  - intros raw setup queries H k. apply extract_Ok in H as (Hc & _ & ->).
    rewrite store_dom, dom_empty,
      <- (entries_keys raw _ k (q_positions_wf raw) Hc).
    rewrite elem_of_empty. tauto.
Qed.


(** C3, amended (setup partition).  The setup statements, which the
    extractor returns whenever it returns, are the statements of the
    splitter before the first one that holds the token, and all the
    statements when none holds it.  The token is the word Segment in any
    case of its letters, starting at a word boundary, then white space or
    none at all, then the digit 1 ending at a word boundary.  For the
    statements A, B, one with [Segment 1], C and D the setup statements are
    A and B. *)
Theorem setup_partition :
  (forall raw,
     exists rest,
       split_mysql_statements raw
       = setup_statements (split_mysql_statements raw) ++ rest /\
       Forall (fun s => search_segment1 s = false)
              (setup_statements (split_mysql_statements raw)) /\
       (rest = [] \/ exists s r, rest = s :: r /\ search_segment1 s = true) /\
       forall setup queries,
         extract_setup_and_queries raw = Ok (setup, queries) ->
         setup = setup_statements (split_mysql_statements raw))
  /\ (forall s,
        search_segment1 s = true <->
        exists pre kw ws post,
          s = pre ++ kw ++ ws ++ 49%N :: post /\
          ci_match (str "segment") kw /\
          Forall (fun c => is_space c = true) ws /\
          word_boundary (last pre) (head kw) = true /\
          word_boundary (Some 49%N) (head post) = true)
  /\ extract_setup_and_queries
       (str "A; B; -- Segment 1" ++ [LF] ++ str "C; D;")
     = Ok ([str "A"; str "B"], ∅).
Proof.
  split; [|split; [apply search_segment1_token|vm_compute; reflexivity]].
  intros raw.
  destruct (setup_statements_spec (split_mysql_statements raw))
    as (rest & E & Hall & Hrest).
  exists rest. repeat split; try assumption.
  intros setup queries H. now apply extract_Ok in H as (_ & -> & _).
Qed.

Lemma ci_match_last lit p m :
  ci_match (lit ++ [p]) m ->
  exists m0 y, m = m0 ++ [y] /\ ci_eq p y = true.
Proof.
  intros H. apply Forall2_app_inv_l in H as (m0 & m1 & _ & H1 & ->).
  inversion H1 as [|? y ? l Hy Hl]; subst. inversion Hl; subst.
  now exists m0, y.
Qed.

Lemma ci_eq_s_not_w c : ci_eq 115 c = true -> ci_eq 119 c = true -> False.
Proof.
  unfold ci_eq.
  change (115 =? 115)%N with true. change (115 =? 105)%N with false.
  change (115 =? 107)%N with false. change (119 =? 115)%N with false.
  change (119 =? 105)%N with false. change (119 =? 107)%N with false.
  cbn [andb]. rewrite !orb_false_r. intros H1 H2.
  repeat (apply orb_true_iff in H1 as [H1|H1]);
    apply orb_true_iff in H2 as [H2|H2];
    apply N.eqb_eq in H1, H2; lia.
Qed.

Lemma select_last_char kw x :
  ci_match (str "select") kw -> last kw = Some x -> (x =? SEMI)%N = false.
Proof.
  intros Hsel Hx.
  destruct (ci_match_last (str "selec") 116%N _ Hsel) as (m0 & y & -> & Hy).
  rewrite last_snoc in Hx. injection Hx as <-.
  unfold ci_eq in Hy.
  change (116 =? 115)%N with false in Hy.
  change (116 =? 105)%N with false in Hy.
  change (116 =? 107)%N with false in Hy.
  cbn [andb] in Hy. rewrite !orb_false_r in Hy.
  apply N.eqb_neq. intros ->. discriminate.
Qed.

(** The statement stored for a match that is a text [x] starting with the
    first letter of a keyword, the keyword SELECT, a body with no
    terminator and the terminator: all of it but the terminator. *)
Lemma sql_of_match hd kw body c t :
  hd ++ kw = c :: t -> ci_eq 115 c = true \/ ci_eq 119 c = true ->
  ci_match (str "select") kw -> ~ In SEMI body ->
  rstrip_by (fun c => (c =? SEMI)%N) (strip (hd ++ kw ++ body ++ [SEMI]))
  = hd ++ kw ++ body.
Proof.
  intros Hhd Hc Hsel Hno.
  destruct (keyword_head_char c Hc) as [Hsp _].
  rewrite (strip_fix _ c SEMI); try reflexivity; try assumption.
  2:{ rewrite app_assoc, Hhd. reflexivity. }
  2:{ rewrite !app_assoc. apply last_snoc. }
  rewrite !app_assoc, rstrip_by_snoc, N.eqb_refl.
  apply rstrip_by_fix. intros x Hx.
  destruct body as [|b body] using rev_ind.
  - rewrite app_nil_r in Hx. apply (select_last_char kw); [exact Hsel|].
    destruct (ci_match_last (str "selec") 116%N _ Hsel) as (m0 & y & -> & _).
    rewrite app_assoc, last_snoc in Hx. now rewrite last_snoc.
  - clear IHbody. rewrite !app_assoc, last_snoc in Hx. injection Hx as <-.
    apply N.eqb_neq. intros ->. apply Hno. apply in_or_app. right. now left.
Qed.

(** The first match of the query pattern in a block, in its parts: where it
    lies, that no match starts before it, and the two shapes it can have.
    In the second shape, [mid] is the shortest text behind the WITH after
    which the rest of the pattern matches. *)
Lemma search_query_parts block g0 :
  search_query block = Some g0 ->
  exists pre post,
    block = pre ++ g0 ++ post /\
    word_boundary (last pre) (head g0) = true /\
    (forall a b, pre = a ++ b -> b <> [] ->
       query_at (last a) (b ++ g0 ++ post) = None) /\
    ((exists kw body,
        g0 = kw ++ body ++ [SEMI] /\
        ci_match (str "select") kw /\ ~ In SEMI body /\
        word_boundary (last kw) (head (body ++ [SEMI])) = true) \/
     (exists w mid sel body,
        g0 = w ++ mid ++ sel ++ body ++ [SEMI] /\
        ci_match (str "with") w /\ mid <> [] /\
        ci_match (str "select") sel /\ ~ In SEMI body /\
        word_boundary (last w) (head mid) = true /\
        word_boundary (last sel) (head (body ++ [SEMI])) = true /\
        (forall a b, mid = a ++ b -> a <> [] -> b <> [] ->
           select_tail (b ++ sel ++ body ++ SEMI :: post) = None))).
Proof.
  intros H.
  apply search_query_from_spec in H as (pre & post0 & -> & H & Hleft).
  assert (Hlast : forall a : pystr,
             match last a with Some c => Some c | None => None end = last a)
    by (intros a; now destruct (last a)).
  rewrite Hlast in H.
  assert (Hleft' : forall a b, pre = a ++ b -> b <> [] ->
                     query_at (last a) (b ++ post0) = None).
  { intros a b E Hb. rewrite <- (Hlast a). now apply Hleft. }
  clear Hleft.
  apply query_at_spec in H as [Hwb [H | [_ H]]].
  - apply select_tail_spec in H as (kw & body & post & -> & -> & Hkw & Hno & Hb).
    exists pre, post. repeat split; try assumption.
    + rewrite <- Hwb. f_equal.
      destruct (ci_match_cons _ _ _ Hkw) as (c & t & -> & _). reflexivity.
    + left. now exists kw, body.
  - apply with_tail_spec in H
      as (w & mid & sel & body & post & -> & -> & Hw & Hmid & Hsel & Hno
          & Hb1 & Hb2 & Hmin).
    exists pre, post. repeat split; try assumption.
    + rewrite <- Hwb. f_equal.
      destruct (ci_match_cons _ _ _ Hw) as (c & t & -> & _). reflexivity.
    + right. now exists w, mid, sel, body.
Qed.

(** C9, amended (WITH clauses).  When the first match of the query pattern
    in a block begins with the keyword WITH, the match is that keyword, a
    text [mid] that is not empty, the keyword SELECT, and then everything
    up to the first terminator behind that SELECT; [mid] is the shortest
    text after which a SELECT that ends at a word boundary and a
    terminator behind it are found, so the SELECT is the first such one
    behind the WITH, and terminators may stand in [mid].  No match of the
    pattern starts before the WITH.  The stored sql is all of the match but
    its last terminator: it starts at the WITH, not at the SELECT inside.
    A block with [WITH t AS (SELECT 1) SELECT * FROM t;] gives the sql
    [WITH t AS (SELECT 1) SELECT * FROM t]. *)
Theorem with_clause_capture :
  (forall block g0,
     search_query block = Some g0 ->
     is_Some (match_ci (str "with") g0) ->
     exists pre w mid sel body post,
       block = pre ++ g0 ++ post /\
       (forall a b, pre = a ++ b -> b <> [] ->
          query_at (last a) (b ++ g0 ++ post) = None) /\
       g0 = w ++ mid ++ sel ++ body ++ [SEMI] /\
       ci_match (str "with") w /\ mid <> [] /\
       ci_match (str "select") sel /\ ~ In SEMI body /\
       word_boundary (last w) (head mid) = true /\
       word_boundary (last sel) (head (body ++ [SEMI])) = true /\
       (forall a b, mid = a ++ b -> a <> [] -> b <> [] ->
          select_tail (b ++ sel ++ body ++ SEMI :: post) = None) /\
       rstrip_by (fun c => (c =? SEMI)%N) (strip g0)
       = w ++ mid ++ sel ++ body)
  /\ search_query
       (str "-- Q1 - cte" ++ [LF]
        ++ str "WITH t AS (SELECT 1) SELECT * FROM t;")
     = Some (str "WITH t AS (SELECT 1) SELECT * FROM t;")
  /\ extract_setup_and_queries
       (str "-- Q1 - cte" ++ [LF]
        ++ str "WITH t AS (SELECT 1) SELECT * FROM t;")
     = Ok ([str "-- Q1 - cte" ++ [LF]
            ++ str "WITH t AS (SELECT 1) SELECT * FROM t"],
           {[ str "Q01" :=
                {| label := str "Q1 - cte";
                   sql := str "WITH t AS (SELECT 1) SELECT * FROM t" |} ]}).
Proof.
  split; [|split; vm_compute; reflexivity].
  intros block g0 Hs [[w0 rest0] Hw0].
  destruct (match_ci_spec _ _ _ _ Hw0) as [Eg Hmw].
  destruct (ci_match_cons _ _ _ Hmw) as (c0 & t0 & -> & Hc0).
  destruct (search_query_parts _ _ Hs)
    as (pre & post & Hb & _ & Hleft & [H|H]).
  { exfalso. destruct H as (kw & body & -> & Hkw & _).
    destruct (ci_match_cons _ _ _ Hkw) as (c & t & -> & Hc).
    simpl in Eg. injection Eg as -> _. exact (ci_eq_s_not_w _ Hc Hc0). }
  destruct H as (w & mid & sel & body & -> & Hw & Hmid & Hsel & Hno
                 & Hb1 & Hb2 & Hmin).
  exists pre, w, mid, sel, body, post. repeat split; try assumption.
  destruct (ci_match_cons _ _ _ Hw) as (c & t & -> & Hc).
  rewrite !(app_assoc (c :: t) mid).
  apply (sql_of_match ((c :: t) ++ mid) sel body c (t ++ mid ++ sel)); auto.
  simpl. now rewrite <- app_assoc.
Qed.

(** C10 (the query search sees no quotes).  In the text [-- Q1 - semi],
    [SELECT ';' AS a;] the statement scan keeps the terminator inside the
    string and returns the SELECT whole, while the query pattern stops at
    that terminator: the match in the block of Q1 is [SELECT ';] and the
    sql stored is [SELECT '], cut inside the string literal. *)
Theorem query_search_not_quote_aware :
  split_mysql_statements
    (str "-- Q1 - semi" ++ [LF] ++ str "SELECT ';' AS a;")
  = [str "-- Q1 - semi" ++ [LF] ++ str "SELECT ';' AS a"]
  /\ search_query (str "-- Q1 - semi" ++ [LF] ++ str "SELECT ';' AS a;")
     = Some (str "SELECT ';")
  /\ extract_setup_and_queries
       (str "-- Q1 - semi" ++ [LF] ++ str "SELECT ';' AS a;")
     = Ok ([str "-- Q1 - semi" ++ [LF] ++ str "SELECT ';' AS a"],
           {[ str "Q01" := {| label := str "Q1 - semi";
                              sql := str "SELECT '" |} ]}).
Proof. repeat split; vm_compute; reflexivity. Qed.

End Extractor_Claims.

(** * Further properties of [split_mysql_statements] *)

(** ** Texts without a terminator, and texts cut at a terminator *)

Lemma scan_step_ahead pre st st' c :
  ahead pre st st' -> ahead pre (scan_step st c) (scan_step st' c).
Proof.
  intros (Hs & Hb & H1 & H2 & H3). unfold ahead, scan_step.
  rewrite Hs, Hb, H1, H2, H3.
  destruct (_ && _ && _); simpl; repeat split; try reflexivity.
  now rewrite app_assoc.
Qed.

Lemma scan_ahead pre text : forall st st',
  ahead pre st st' -> ahead pre (scan st text) (scan st' text).
Proof.
  induction text as [|c t IH]; intros st st' H; [exact H|].
  rewrite !scan_cons. apply IH. now apply scan_step_ahead.
Qed.

(** The statements a finished scan returns, with the flushed tail written
    as one more candidate. *)
Lemma scan_finish_filter st :
  scan_finish st =
    List.filter (fun s => nonempty (strip s)) (stmts st ++ [strip (buff st)]).
Proof.
  unfold scan_finish.
  assert (Hlast : forall b,
             List.filter (fun s => nonempty (strip s)) [strip b]
             = if nonempty (strip b) then [strip b] else []).
  { intros b. cbn [List.filter]. now rewrite strip_idem. }
  rewrite (List.filter_app _ (stmts st)), Hlast.
  destruct (buff st) as [|c b] eqn:E.
  - cbn [nonempty]. rewrite strip_nil. cbn [nonempty].
    now rewrite app_nil_r.
  - cbn [nonempty]. destruct (nonempty (strip (c :: b))) eqn:Hn.
    + now rewrite List.filter_app, Hlast, Hn.
    + now rewrite app_nil_r.
Qed.

Lemma scan_finish_ahead pre st st' :
  ahead pre st st' ->
  scan_finish st = List.filter (fun s => nonempty (strip s)) pre ++ scan_finish st'.
Proof.
  intros (Hs & Hb & _). rewrite !scan_finish_filter, Hs, Hb.
  now rewrite <- app_assoc, List.filter_app.
Qed.

(** A text with no terminator in it is one statement, stripped, or none
    when nothing is left of it: content with no terminator behind it is
    not lost. *)
Lemma split_text_no_terminator text :
  ~ In SEMI text ->
  split_text text = if nonempty (strip text) then [strip text] else [].
Proof.
  intros Hno. unfold split_text. rewrite scan_finish_filter.
  destruct (scan_no_semi text scan_init Hno) as [-> ->].
  cbn [scan_init stmts buff app List.filter]. now rewrite strip_idem.
Qed.

(** X1.  A terminator met outside the strings cuts the text in two parts that
    are split on their own: the statements of the whole text are those of
    the part before it and then those of the part behind it.  With nothing
    behind it, the terminator at the end of a text changes nothing. *)
Theorem split_text_at_terminator a b :
  quotes_closed (scan scan_init a) = true ->
  split_text (a ++ SEMI :: b) = split_text a ++ split_text b.
Proof.
  intros Hq. unfold split_text.
  change (a ++ SEMI :: b) with (a ++ [SEMI] ++ b). rewrite !scan_app.
  set (sa := scan scan_init a) in *.
  assert (Ha : ahead (stmts sa ++ [strip (buff sa)])
                 (scan sa [SEMI]) scan_init).
  { unfold quotes_closed in Hq. apply andb_true_iff in Hq as [H1 H2].
    apply negb_true_iff in H1, H2.
    unfold ahead, scan, scan_step. simpl fold_left.
    change (SEMI =? SQUOTE)%N with false. change (SEMI =? DQUOTE)%N with false.
    change (SEMI =? SEMI)%N with true. change (SEMI =? BACKSLASH)%N with false.
    cbn [andb]. rewrite H1, H2. simpl. repeat split; try assumption.
    now rewrite app_nil_r. }
  rewrite (scan_finish_ahead _ _ _ (scan_ahead _ b _ _ Ha)).
  f_equal. now rewrite scan_finish_filter.
Qed.

(** ** What the comment filter lets through *)

Lemma splitlines_chars s : forall l c,
  In l (splitlines s) -> In c l -> In c s.
Proof.
  induction s as [|a r IH]; intros l c Hl Hc; [contradiction|].
  simpl in Hl. destruct (is_linebreak a).
  - destruct r as [|d r'].
    + destruct Hl as [<-|[]]. contradiction.
    + destruct ((a =? CR)%N && (d =? LF)%N) eqn:Hcr.
      * destruct Hl as [<-|Hl]; [contradiction|].
        apply andb_true_iff in Hcr as [_ Hd]. apply N.eqb_eq in Hd. subst d.
        right. apply (IH l c); [|exact Hc].
        destruct r' as [|e r'']; [contradiction|]. now right.
      * destruct Hl as [<-|Hl]; [contradiction|].
        right. now apply (IH l c).
  - destruct (splitlines r) as [|l0 ls] eqn:E.
    + destruct Hl as [<-|[]]. destruct Hc as [<-|[]]. now left.
    + destruct Hl as [<-|Hl].
      * destruct Hc as [<-|Hc]; [now left|].
        right. apply (IH l0 c); [now left|exact Hc].
      * right. apply (IH l c); [now right|exact Hc].
Qed.

Lemma sub_block_comments_chars l : forall skip c,
  In c (sub_block_comments_from skip l) -> c = SPACE \/ In c l.
Proof.
  induction l as [|a r IH]; intros skip c H; [contradiction|].
  destruct skip as [|k].
  - rewrite sub_block_comments_from_0 in H.
    destruct (starts_with [SLASH; STAR] (a :: r)).
    + destruct (close_len (drop 2 (a :: r))).
      * destruct H as [<-|H]; [now left|].
        destruct (IH _ _ H); [now left|right; now right].
      * destruct H as [<-|H]; [right; now left|].
        destruct (IH _ _ H); [now left|right; now right].
    + destruct H as [<-|H]; [right; now left|].
      destruct (IH _ _ H); [now left|right; now right].
  - simpl in H. destruct (IH _ _ H); [now left|right; now right].
Qed.

Lemma sub_line_comment_chars l : forall c,
  In c (sub_line_comment l) -> In c l.
Proof.
  induction l as [|a r IH]; intros c H; [contradiction|].
  assert (Heol : forall s x, In x (eol_tail s) -> In x s).
  { clear. induction s as [|b s IHs]; intros x Hx; [contradiction|].
    simpl in Hx. destruct (b =? LF)%N; [exact Hx|right; now apply IHs]. }
  simpl in H. destruct (_ && _).
  - destruct (eol_tail r) as [|d [|e t]] eqn:E.
    + contradiction.
    + right. apply Heol. now rewrite E.
    + destruct H as [<-|H]; [now left|right; now apply IH].
  - destruct H as [<-|H]; [now left|right; now apply IH].
Qed.

Lemma join_lines_chars ls : forall c,
  In c (join_lines ls) -> c = LF \/ exists l, In l ls /\ In c l.
Proof.
  induction ls as [|l ls IH]; intros c H; [contradiction|].
  destruct ls as [|l' ls'].
  - right. exists l. split; [now left|exact H].
  - change (join_lines (l :: l' :: ls'))
      with (l ++ LF :: join_lines (l' :: ls')) in H.
    apply in_app_or in H as [H|[<-|H]].
    + right. exists l. split; [now left|exact H].
    + now left.
    + destruct (IH c H) as [->|(l0 & Hl0 & Hc)]; [now left|].
      right. exists l0. split; [now right|exact Hc].
Qed.

Section Filter_Props.
Context {U : UnicodeData}.

Lemma filter_lines_chars ls : forall in_block l c,
  In l (filter_lines in_block ls) -> In c l ->
  c = SPACE \/ exists l0, In l0 ls /\ In c l0.
Proof.
  induction ls as [|line rest IH]; intros in_block l c Hl Hc; [contradiction|].
  assert (Hrest : forall b, In l (filter_lines b rest) ->
            c = SPACE \/ exists l0, In l0 (line :: rest) /\ In c l0).
  { intros b H. destruct (IH b l c H Hc) as [->|(l0 & H0 & H1)]; [now left|].
    right. exists l0. split; [now right|exact H1]. }
  assert (Hhere : In c (sub_block_comments line) ->
            c = SPACE \/ exists l0, In l0 (line :: rest) /\ In c l0).
  { intros H. destruct (sub_block_comments_chars _ _ _ H); [now left|].
    right. exists line. split; [now left|assumption]. }
  simpl in Hl.
  destruct (if contains [SLASH; STAR] line && negb (contains [STAR; SLASH] line)
            then true else in_block).
  - now apply (Hrest _ Hl).
  - destruct (match_qmarker _ || search_segment _).
    + destruct Hl as [<-|Hl]; [now apply Hhere|now apply (Hrest _ Hl)].
    + destruct Hl as [<-|Hl]; [|now apply (Hrest _ Hl)].
      apply Hhere. now apply sub_line_comment_chars.
Qed.

(** The filter adds nothing but spaces and line feeds to a text. *)
Lemma filter_comments_chars raw c :
  In c (filter_comments raw) -> c = SPACE \/ c = LF \/ In c raw.
Proof.
  intros H. apply join_lines_chars in H as [->|(l & Hl & Hc)]; [auto|].
  destruct (filter_lines_chars _ _ _ _ Hl Hc) as [->|(l0 & H0 & H1)]; [auto|].
  right. right. now apply (splitlines_chars raw l0).
Qed.

(** X2.  A text with no terminator in it gives one statement at most: what is
    left of it after the comment filter, stripped. *)
Theorem split_no_terminator raw :
  ~ In SEMI raw ->
  split_mysql_statements raw =
    if nonempty (strip (filter_comments raw))
    then [strip (filter_comments raw)] else [].
Proof.
  intros Hno. apply split_text_no_terminator. intros H.
  apply filter_comments_chars in H as [H|[H|H]]; try discriminate H.
  contradiction.
Qed.

(** In a block comment of several lines the filter drops every line up to
    and with the first one that holds a closer, whatever else stands on
    it. *)
Lemma filter_lines_in_block mid : forall closer rest,
  Forall (fun l => contains [STAR; SLASH] l = false) mid ->
  contains [STAR; SLASH] closer = true ->
  filter_lines true (mid ++ closer :: rest) = filter_lines false rest.
Proof.
  induction mid as [|l mid IH]; intros closer rest Hmid Hc.
  - simpl. rewrite Hc. simpl. now rewrite andb_false_r.
  - inversion Hmid as [|? ? Hl Hmid']; subst. simpl. rewrite Hl. simpl.
    destruct (contains [SLASH; STAR] l); simpl; now apply IH.
Qed.

Lemma filter_lines_unclosed mid :
  Forall (fun l => contains [STAR; SLASH] l = false) mid ->
  filter_lines true mid = [].
Proof.
  induction 1 as [|l mid Hl _ IH]; [reflexivity|].
  simpl. rewrite Hl. simpl.
  destruct (contains [SLASH; STAR] l); simpl; exact IH.
Qed.

(** X3.  A line that holds an opener and no closer starts a block comment of
    several lines: that line is dropped whole, with what stands before the
    opener, and so is every line up to and with the first line that holds a
    closer, with what stands behind the closer; the filter goes on outside
    the comment with the line after.  When no line holds a closer, nothing
    is kept of the rest of the text. *)
Theorem block_comment_lines_dropped opener mid :
  contains [SLASH; STAR] opener = true ->
  contains [STAR; SLASH] opener = false ->
  Forall (fun l => contains [STAR; SLASH] l = false) mid ->
  (forall closer rest,
     contains [STAR; SLASH] closer = true ->
     filter_lines false (opener :: mid ++ closer :: rest)
     = filter_lines false rest)
  /\ filter_lines false (opener :: mid) = [].
Proof.
  intros Ho Hc Hmid. split.
  - intros closer rest Hcl. simpl. rewrite Ho, Hc. simpl.
    now apply filter_lines_in_block.
  - simpl. rewrite Ho, Hc. simpl. now apply filter_lines_unclosed.
Qed.

End Filter_Props.

(** ** Line comments and line ends *)

Lemma contains_cons_false pat c l :
  contains pat (c :: l) = false ->
  starts_with pat (c :: l) = false /\ contains pat l = false.
Proof. simpl. intros H. now apply orb_false_elim in H. Qed.

Lemma sub_block_comments_id l :
  contains [SLASH; STAR] l = false -> sub_block_comments l = l.
Proof.
  unfold sub_block_comments. induction l as [|c l IH]; intros H; [reflexivity|].
  apply contains_cons_false in H as [Hs Hc].
  rewrite sub_block_comments_from_0, Hs. f_equal. now apply IH.
Qed.

Lemma sub_line_comment_id l :
  contains [DASH; DASH] l = false -> sub_line_comment l = l.
Proof.
  induction l as [|c l IH]; intros H; [reflexivity|].
  apply contains_cons_false in H as [Hs Hc].
  simpl in Hs. simpl. rewrite Hs. f_equal. now apply IH.
Qed.

Lemma eol_tail_no_lf s : ~ In LF s -> eol_tail s = [].
Proof.
  induction s as [|c s IH]; intros H; [reflexivity|]. simpl.
  destruct (N.eqb_spec c LF) as [->|_]; [exfalso; apply H; now left|].
  apply IH. intros Hi. apply H. now right.
Qed.

(** On a line, the first two dashes in a row and all that follows them are
    cut. *)
Lemma sub_line_comment_cut pre post :
  contains [DASH; DASH] (pre ++ [DASH]) = false -> ~ In LF post ->
  sub_line_comment (pre ++ DASH :: DASH :: post) = pre.
Proof.
  intros Hpre Hlf. induction pre as [|c pre IH].
  - simpl. now rewrite (eol_tail_no_lf post Hlf).
  - change ((c :: pre) ++ [DASH]) with (c :: pre ++ [DASH]) in Hpre.
    apply contains_cons_false in Hpre as [Hs Hc].
    change ((c :: pre) ++ DASH :: DASH :: post)
      with (c :: pre ++ DASH :: DASH :: post).
    assert (Hs' : starts_with [DASH; DASH] (c :: pre ++ DASH :: DASH :: post)
                  = false).
    { simpl in Hs. simpl. destruct (c =? DASH)%N; [|reflexivity]. simpl in *.
      destruct pre as [|d pre]; simpl in *; [discriminate|].
      now rewrite andb_true_r in *. }
    simpl in Hs'. simpl. rewrite Hs'. f_equal. now apply IH.
Qed.

Lemma splitlines_crlf s : ~ In CR s -> splitlines (to_crlf s) = splitlines s.
Proof.
  induction s as [|c r IH]; intros Hno; [reflexivity|].
  assert (Hr : ~ In CR r) by (intros H; apply Hno; now right).
  assert (Hc : c <> CR) by (intros ->; apply Hno; now left).
  specialize (IH Hr). simpl to_crlf.
  destruct (N.eqb_spec c LF) as [->|Hlf].
  - change (splitlines (CR :: LF :: to_crlf r))
      with ([] :: splitlines (to_crlf r)).
    rewrite IH. destruct r as [|d r']; reflexivity.
  - simpl. destruct (is_linebreak c) eqn:Hb.
    + apply N.eqb_neq in Hc. rewrite Hc. simpl.
      destruct r as [|d r']; [reflexivity|].
      rewrite <- IH. simpl to_crlf. destruct (d =? LF)%N; reflexivity.
    + now rewrite IH.
Qed.

Section Line_Props.
Context {U : UnicodeData}.

(** X4.  A line outside the block comments that holds no opener and does not
    fall under the preservation rule is cut at its first two dashes in a
    row, whether they open a comment or stand inside a string literal; a
    line with no two dashes in a row is kept as it is. *)
Theorem line_comment_cut rest :
  (forall pre post,
     let line := pre ++ DASH :: DASH :: post in
     contains [SLASH; STAR] line = false ->
     match_qmarker line || search_segment line = false ->
     contains [DASH; DASH] (pre ++ [DASH]) = false -> ~ In LF post ->
     filter_lines false (line :: rest) = pre :: filter_lines false rest)
  /\ (forall line,
        contains [SLASH; STAR] line = false ->
        contains [DASH; DASH] line = false ->
        filter_lines false (line :: rest) = line :: filter_lines false rest).
Proof.
  split.
  - intros pre post line Hblock Hkeep Hpre Hlf.
    rewrite filter_lines_plain by now rewrite Hblock.
    cbv zeta. rewrite (sub_block_comments_id line Hblock), Hkeep.
    f_equal. now apply sub_line_comment_cut.
  - intros line Hblock Hdash.
    rewrite filter_lines_plain by now rewrite Hblock.
    cbv zeta. rewrite (sub_block_comments_id line Hblock).
    rewrite (sub_line_comment_id line Hdash).
    now destruct (match_qmarker line || search_segment line).
Qed.

(** X5.  The statements of a text do not depend on how its lines end: with
    every line feed written as a carriage return and a line feed, a text
    that held no carriage return splits into the same statements. *)
Theorem split_crlf raw :
  ~ In CR raw ->
  split_mysql_statements (to_crlf raw) = split_mysql_statements raw.
Proof.
  intros H. unfold split_mysql_statements, filter_comments.
  now rewrite splitlines_crlf.
Qed.

End Line_Props.

(** ** Backslashes in the statement scan *)

Lemma scan_escaped_inside q st c :
  inside q st ->
  inside q (scan st [BACKSLASH; c]) /\
  stmts (scan st [BACKSLASH; c]) = stmts st /\
  buff (scan st [BACKSLASH; c]) = buff st ++ [BACKSLASH; c].
Proof.
  intros [He [(-> & Hs & Hd)|(-> & Hs & Hd)]];
    unfold scan, inside; cbn [fold_left]; unfold scan_step;
    cbn [stmts buff in_single in_double esc]; rewrite He, Hs, Hd;
    change (BACKSLASH =? SQUOTE)%N with false;
    change (BACKSLASH =? DQUOTE)%N with false;
    change (BACKSLASH =? SEMI)%N with false;
    change (BACKSLASH =? BACKSLASH)%N with true;
    cbn [andb negb stmts buff in_single in_double esc];
    rewrite !andb_false_r;
    cbn [andb negb stmts buff in_single in_double esc];
    rewrite ?andb_false_r;
    cbn [andb negb stmts buff in_single in_double esc];
    rewrite <- ?app_assoc; simpl; intuition auto.
Qed.

Lemma scan_pieces_inside q body : forall st,
  inside q st -> Forall (piece_of q) body ->
  inside q (scan st (concat (map piece_chars body))) /\
  stmts (scan st (concat (map piece_chars body))) = stmts st /\
  buff (scan st (concat (map piece_chars body)))
  = buff st ++ concat (map piece_chars body).
Proof.
  induction body as [|p body IH]; intros st Hin Hb.
  - simpl. now rewrite app_nil_r.
  - inversion Hb as [|? ? Hp Hb']; subst.
    cbn [map concat]. rewrite scan_app.
    assert (H1 : inside q (scan st (piece_chars p)) /\
                 stmts (scan st (piece_chars p)) = stmts st /\
                 buff (scan st (piece_chars p)) = buff st ++ piece_chars p).
    { destruct p as [c|c].
      - destruct Hp as [Hq Hbs]. exact (scan_step_inside q st c Hin Hq Hbs).
      - exact (scan_escaped_inside q st c Hin). }
    destruct H1 as (Hin' & Hs & Hbf).
    destruct (IH _ Hin' Hb') as (Hin'' & Hs' & Hbf').
    rewrite Hs', Hbf', Hs, Hbf.
    split; [exact Hin''|split; [reflexivity|]].
    now rewrite <- app_assoc.
Qed.

(** X6.  Inside a string literal a backslash takes the next character with it:
    an escaped quote does not close the literal and an escaped backslash
    escapes nothing behind it, so that a literal made of plain characters
    and of escaped ones, terminators among them, ends no statement and
    goes whole into the buffer.  Outside the strings the backslash acts
    the same on a quote, which then opens no literal, but it does not
    protect a terminator. *)
Theorem backslash_escapes st :
  outside st ->
  (forall q body,
      q = SQUOTE \/ q = DQUOTE -> Forall (piece_of q) body ->
      let lit := q :: concat (map piece_chars body) ++ [q] in
      outside (scan st lit) /\
      stmts (scan st lit) = stmts st /\
      buff (scan st lit) = buff st ++ lit)
  /\ (forall q,
      q = SQUOTE \/ q = DQUOTE ->
      outside (scan st [BACKSLASH; q]) /\
      stmts (scan st [BACKSLASH; q]) = stmts st /\
      buff (scan st [BACKSLASH; q]) = buff st ++ [BACKSLASH; q])
  /\ stmts (scan st [BACKSLASH; SEMI]) = stmts st ++ [strip (buff st ++ [BACKSLASH])].
Proof.
  intros Hout. split; [|split].
  - intros q body Hq Hb lit. unfold lit. rewrite scan_cons, scan_app.
    destruct (scan_step_open q st Hq Hout) as (H1 & S1 & B1).
    destruct (scan_pieces_inside q body _ H1 Hb) as (H2 & S2 & B2).
    destruct (scan_step_close q _ H2) as (H3 & S3 & B3).
    change (scan ?s [q]) with (scan_step s q).
    rewrite S3, B3, S2, B2, S1, B1.
    split; [exact H3|split; [reflexivity|]].
    rewrite <- !app_assoc. reflexivity.
  - destruct Hout as (Hs & Hd & He).
    intros q [-> | ->]; unfold scan, outside; cbn [fold_left];
      unfold scan_step; cbn [stmts buff in_single in_double esc];
      rewrite Hs, Hd, He; simpl; rewrite <- ?app_assoc; intuition auto.
  - destruct Hout as (Hs & Hd & He).
    unfold scan; cbn [fold_left]; unfold scan_step;
      cbn [stmts buff in_single in_double esc]; rewrite Hs, Hd, He.
    reflexivity.
Qed.

(** ** What the statement scan drops *)

Lemma rstrip_by_split p s :
  exists ws, s = rstrip_by p s ++ ws /\ Forall (fun c => p c = true) ws.
Proof.
  induction s as [|c s IH] using rev_ind.
  - exists []. now split.
  - rewrite rstrip_by_snoc. destruct (p c) eqn:Hc.
    + destruct IH as (ws & E & Hws). exists (ws ++ [c]). split.
      * rewrite app_assoc. now rewrite <- E.
      * apply Forall_app. split; [exact Hws|]. now repeat constructor.
    + exists []. split; [now rewrite app_nil_r|constructor].
Qed.

Lemma strip_split s :
  exists ws1 ws2,
    s = ws1 ++ strip s ++ ws2 /\
    Forall (fun c => is_space c = true) ws1 /\
    Forall (fun c => is_space c = true) ws2.
Proof.
  destruct (rstrip_by_split is_space (lstrip_by is_space s)) as (ws2 & E & H2).
  exists (prefix_by is_space s), ws2. split; [|split].
  - unfold strip. rewrite <- E. apply lstrip_by_split.
  - apply prefix_by_Forall.
  - exact H2.
Qed.

Lemma space_is_gap ws :
  Forall (fun c => is_space c = true) ws -> Forall (fun c => is_gap c = true) ws.
Proof.
  intros H. eapply Forall_impl; [exact H|].
  intros c Hc. unfold is_gap. now rewrite Hc.
Qed.

Lemma woven_gap l text : forall g,
  woven l text -> Forall (fun c => is_gap c = true) g -> woven l (text ++ g).
Proof.
  intros g H Hg. induction H as [g0 H0|g0 s l text H0 H IH].
  - constructor. apply Forall_app. now split.
  - rewrite <- !app_assoc. now constructor.
Qed.

Lemma woven_snoc l text s g :
  woven l text -> Forall (fun c => is_gap c = true) g ->
  woven (l ++ [s]) (text ++ s ++ g).
Proof.
  intros H Hg. induction H as [g0 H0|g0 s0 l text H0 H IH].
  - simpl. constructor; [exact H0|]. now constructor.
  - rewrite <- !app_assoc. simpl. now constructor.
Qed.

(** The buffer [b] is flushed behind the statements of [l]. *)
Lemma woven_flush l text b g :
  woven l text -> Forall (fun c => is_gap c = true) g ->
  woven (l ++ if nonempty (strip b) then [strip b] else [])
        (text ++ b ++ g).
Proof.
  intros H Hg. destruct (strip_split b) as (ws1 & ws2 & E & H1 & H2).
  apply space_is_gap in H1, H2.
  destruct (strip b) as [|c r] eqn:Hs; cbn [nonempty].
  - rewrite app_nil_r. apply woven_gap; [exact H|].
    rewrite E. simpl. rewrite !Forall_app. tauto.
  - rewrite E, <- !app_assoc, (app_assoc text ws1).
    apply woven_snoc.
    + now apply woven_gap.
    + apply Forall_app. now split.
Qed.

Lemma filter_flush l b :
  List.filter (fun s => nonempty (strip s)) (l ++ [strip b])
  = List.filter (fun s => nonempty (strip s)) l
    ++ if nonempty (strip b) then [strip b] else [].
Proof.
  rewrite List.filter_app. f_equal. cbn [List.filter]. now rewrite strip_idem.
Qed.

Lemma scan_step_woven st pre c :
  (exists t0, pre = t0 ++ buff st /\
     woven (List.filter (fun s => nonempty (strip s)) (stmts st)) t0) ->
  exists t0, pre ++ [c] = t0 ++ buff (scan_step st c) /\
    woven (List.filter (fun s => nonempty (strip s)) (stmts (scan_step st c)))
          t0.
Proof.
  intros (t0 & -> & Hw). unfold scan_step.
  destruct ((c =? SEMI)%N && _ && _) eqn:E; cbn [stmts buff].
  - apply andb_true_iff in E as [E _]. apply andb_true_iff in E as [E _].
    apply N.eqb_eq in E. subst c.
    exists (t0 ++ buff st ++ [SEMI]). split.
    + now rewrite app_nil_r, <- !app_assoc.
    + rewrite filter_flush. apply woven_flush; [exact Hw|].
      now repeat constructor.
  - exists t0. split; [now rewrite <- app_assoc|exact Hw].
Qed.

Lemma scan_woven text : forall st pre,
  (exists t0, pre = t0 ++ buff st /\
     woven (List.filter (fun s => nonempty (strip s)) (stmts st)) t0) ->
  exists t0, pre ++ text = t0 ++ buff (scan st text) /\
    woven (List.filter (fun s => nonempty (strip s)) (stmts (scan st text))) t0.
Proof.
  induction text as [|c t IH]; intros st pre H.
  - now rewrite app_nil_r.
  - rewrite scan_cons.
    change (pre ++ c :: t) with (pre ++ [c] ++ t). rewrite app_assoc.
    apply IH. now apply scan_step_woven.
Qed.

(** X7.  The statement scan loses nothing but white space and terminators: the
    text it reads is the statements it returns, in their order, with runs
    of white space and terminators around them.  So the statements of a
    text given to [split_mysql_statements] are pieces of that text after
    the comment filter, one behind the other, and no character of it that
    is no white space and no terminator is dropped. *)
Theorem split_keeps_text :
  (forall text, woven (split_text text) text) /\
  (forall {U : UnicodeData} raw,
     woven (split_mysql_statements raw) (filter_comments raw)).
Proof.
  assert (H : forall text, woven (split_text text) text).
  { intros text. unfold split_text. rewrite scan_finish_filter, filter_flush.
    destruct (scan_woven text scan_init []) as (t0 & E & Hw).
    { exists []. split; [reflexivity|]. simpl. now constructor. }
    simpl in E. set (st := scan scan_init text) in *.
    replace text with (t0 ++ buff st ++ []) by now rewrite app_nil_r.
    apply woven_flush; [exact Hw|constructor]. }
  split; [exact H|]. intros U raw. apply H.
Qed.

(** * Further properties of the keys *)

Lemma format_02d_two n :
  (n < 100)%N -> format_02d n = [(48 + n / 10)%N; (48 + n mod 10)%N].
Proof.
  intros H. destruct (N.ltb_spec n 10) as [Hs|Hb].
  - rewrite format_02d_small by exact Hs.
    now rewrite N.div_small, N.mod_small.
  - rewrite format_02d_big by exact Hb. unfold py_str_of_int.
    rewrite dec_digits_big by exact Hb.
    destruct (N.to_nat (N.size n)) as [|f] eqn:E.
    + assert (N.size n = 0%N) as E0 by lia.
      pose proof (N.size_gt n) as Hs. rewrite E0 in Hs. simpl in Hs. lia.
    + rewrite dec_digits_small; [reflexivity|].
      apply N.Div0.div_lt_upper_bound. lia.
Qed.

(** X8.  Two numbers get the same key only when they are equal, so two markers
    share an entry of the dictionary exactly when they carry the same
    number, however it is written (Q7, Q07, Q007). *)
Theorem normalized_key_injective n m :
  81%N :: format_02d n = 81%N :: format_02d m <-> n = m.
Proof.
  split; [|now intros ->]. intros [= H].
  pose proof (@int_digits_format basic_latin n) as Hn.
  rewrite H, (@int_digits_format basic_latin m) in Hn. now injection Hn.
Qed.

(** X9.  For marker numbers below one hundred the order of the keys as strings,
    in which [main] runs the queries, is the order of the numbers.  From
    one hundred on it is not: Q100 comes before Q11. *)
Theorem key_order_is_numeric_below_100 :
  (forall n m,
     (n < 100)%N -> (m < 100)%N ->
     str_ltb (81%N :: format_02d n) (81%N :: format_02d m) = (n <? m)%N)
  /\ str_ltb (81%N :: format_02d 100) (81%N :: format_02d 11) = true.
Proof.
  split; [|vm_compute; reflexivity].
  intros n m Hn Hm. rewrite !format_02d_two by assumption.
  pose proof (N.div_mod n 10 ltac:(lia)) as En.
  pose proof (N.div_mod m 10 ltac:(lia)) as Em.
  pose proof (N.mod_lt n 10 ltac:(lia)) as Rn.
  pose proof (N.mod_lt m 10 ltac:(lia)) as Rm.
  set (qn := (n / 10)%N) in *. set (rn := (n mod 10)%N) in *.
  set (qm := (m / 10)%N) in *. set (rm := (m mod 10)%N) in *.
  cbn [str_ltb]. rewrite N.ltb_irrefl, N.eqb_refl. cbn [orb andb].
  rewrite andb_false_r, orb_false_r.
  destruct (N.ltb_spec (48 + qn) (48 + qm)), (N.eqb_spec (48 + qn) (48 + qm)),
    (N.ltb_spec (48 + rn) (48 + rm)), (N.ltb_spec n m);
    cbn [orb andb]; try reflexivity; lia.
Qed.

(** * Properties of the sheet names of [main] *)

Lemma replace_all_map s : forall l : list (char * char),
  fold_left (fun s br => replace_char br.1 br.2 s) l s
  = List.map (fun c => fold_left (fun c br => if (c =? fst br)%N then snd br
                                             else c) l c) s.
Proof.
  intros l. revert s. induction l as [|br l IH]; intros s.
  - simpl. now rewrite List.map_id.
  - simpl. rewrite IH. unfold replace_char. now rewrite List.map_map.
Qed.

Lemma clean_sheet_char_good c : is_bad_sheet_char (clean_sheet_char c) = false.
Proof.
  destruct (N.eqb_spec c 47) as [->|H1]; [reflexivity|].
  destruct (N.eqb_spec c 92) as [->|H2]; [reflexivity|].
  destruct (N.eqb_spec c 58) as [->|H3]; [reflexivity|].
  destruct (N.eqb_spec c 42) as [->|H4]; [reflexivity|].
  destruct (N.eqb_spec c 63) as [->|H5]; [reflexivity|].
  destruct (N.eqb_spec c 91) as [->|H6]; [reflexivity|].
  destruct (N.eqb_spec c 93) as [->|H7]; [reflexivity|].
  apply N.eqb_neq in H1, H2, H3, H4, H5, H6, H7.
  unfold clean_sheet_char, is_bad_sheet_char, sheet_replacements.
  cbn [fold_left existsb fst snd].
  rewrite H1; cbv iota. rewrite H2; cbv iota. rewrite H3; cbv iota.
  rewrite H4; cbv iota. rewrite H5; cbv iota. rewrite H6; cbv iota.
  rewrite H7; cbv iota.
  now rewrite H1, H2, H3, H4, H5, H6, H7.
Qed.

Lemma clean_sheet_char_key c : is_key_char c = true -> clean_sheet_char c = c.
Proof.
  unfold is_key_char, in_range, clean_sheet_char, sheet_replacements.
  intros H. cbn [fold_left fst snd].
  assert (Hc : (c = 81 \/ (48 <= c /\ c <= 57))%N).
  { apply orb_true_iff in H as [H|H]; [left; now apply N.eqb_eq|right].
    apply andb_true_iff in H as [H1 H2].
    apply N.leb_le in H1, H2. now split. }
  assert (Hne : forall y, (y = 47 \/ y = 92 \/ y = 58 \/ y = 42 \/ y = 63
                           \/ y = 91 \/ y = 93)%N -> (c =? y)%N = false).
  { intros y Hy. apply N.eqb_neq. lia. }
  rewrite (Hne 47%N) by tauto; cbv iota. rewrite (Hne 92%N) by tauto; cbv iota.
  rewrite (Hne 58%N) by tauto; cbv iota. rewrite (Hne 42%N) by tauto; cbv iota.
  rewrite (Hne 63%N) by tauto; cbv iota. rewrite (Hne 91%N) by tauto; cbv iota.
  now rewrite (Hne 93%N) by tauto.
Qed.

Lemma sheet_name_eq qkey label :
  sheet_name qkey label
  = take 31 (List.map clean_sheet_char (qkey ++ UNDERSCORE :: label)).
Proof.
  unfold sheet_name. cbv zeta. rewrite replace_all_map.
  fold clean_sheet_char.
  change (fun c => fold_left _ sheet_replacements c) with clean_sheet_char.
  destruct (Nat.ltb_spec 31 (length (List.map clean_sheet_char
                                      (qkey ++ UNDERSCORE :: label)))) as [H|H].
  - reflexivity.
  - now rewrite take_ge.
Qed.

(** X10.  A sheet name has 31 characters at most, as many as the key, an
    underscore and the label have when that is less, so it is never empty;
    none of the seven characters slash, backslash, colon, star, question
    mark and square brackets is left in it. *)
Theorem sheet_name_shape qkey label :
  length (sheet_name qkey label)
    = Nat.min 31 (length qkey + 1 + length label) /\
  Forall (fun c => is_bad_sheet_char c = false) (sheet_name qkey label).
Proof.
  rewrite sheet_name_eq. split.
  - rewrite length_take, length_map, length_app. cbn [length]. lia.
  - apply Forall_take. apply Forall_forall. intros c Hc.
    apply list_elem_of_In, in_map_iff in Hc as (x & <- & _).
    apply clean_sheet_char_good.
Qed.

Lemma key_chars_clean k :
  Forall (fun c => is_key_char c = true) k -> List.map clean_sheet_char k = k.
Proof.
  induction 1 as [|c k Hc _ IH]; [reflexivity|].
  simpl. now rewrite (clean_sheet_char_key c Hc), IH.
Qed.

Lemma key_prefix_eq k1 : forall k2 t1 t2 : pystr,
  Forall (fun c => is_key_char c = true) k1 ->
  Forall (fun c => is_key_char c = true) k2 ->
  k1 ++ UNDERSCORE :: t1 = k2 ++ UNDERSCORE :: t2 -> k1 = k2.
Proof.
  induction k1 as [|c k1 IH]; intros k2 t1 t2 H1 H2 E.
  - destruct k2 as [|d k2]; [reflexivity|]. simpl in E. injection E as <- _.
    inversion H2 as [|? ? Hd _]; subst. discriminate Hd.
  - destruct k2 as [|d k2].
    + simpl in E. injection E as -> _.
      inversion H1 as [|? ? Hd _]; subst. discriminate Hd.
    + simpl in E. injection E as <- E.
      inversion H1; inversion H2; subst. f_equal. now apply (IH k2 t1 t2).
Qed.

(** The keys the extractor makes hold key characters only. *)
Lemma dec_digits_chars f : forall n acc,
  Forall (fun c => is_key_char c = true) acc ->
  Forall (fun c => is_key_char c = true) (dec_digits f n acc).
Proof.
  induction f as [|f IH]; intros n acc Hacc; [exact Hacc|].
  assert (Hd : is_key_char (48 + n mod 10) = true).
  { pose proof (N.mod_lt n 10 ltac:(lia)) as Hr.
    set (r := (n mod 10)%N) in *.
    unfold is_key_char, in_range. apply orb_true_iff. right.
    apply andb_true_iff. split; apply N.leb_le; lia. }
  simpl. destruct (n <? 10)%N; [now constructor|].
  apply IH. now constructor.
Qed.

Lemma normalized_key_chars n :
  Forall (fun c => is_key_char c = true) (81%N :: format_02d n).
Proof.
  constructor; [reflexivity|]. unfold format_02d. apply Forall_app. split.
  - apply Forall_forall. intros c Hc. apply list_elem_of_In in Hc.
    apply repeat_spec in Hc. now subst.
  - apply dec_digits_chars. constructor.
Qed.

(** Two queries get the same sheet name only when they have the same key,
    as long as the keys, made of the letter Q and digits, have 30
    characters at most: the sheets of two entries of the dictionary never
    collide. *)
Lemma sheet_name_distinct k1 k2 l1 l2 :
  Forall (fun c => is_key_char c = true) k1 ->
  Forall (fun c => is_key_char c = true) k2 ->
  length k1 <= 30 -> length k2 <= 30 ->
  sheet_name k1 l1 = sheet_name k2 l2 -> k1 = k2.
Proof.
  intros H1 H2 L1 L2 E. rewrite !sheet_name_eq in E.
  rewrite !map_app in E. simpl List.map in E.
  rewrite (key_chars_clean k1 H1), (key_chars_clean k2 H2) in E.
  change (clean_sheet_char UNDERSCORE) with UNDERSCORE in E.
  assert (Hcut : forall (k t : pystr), length k <= 30 ->
            take 31 (k ++ UNDERSCORE :: t)
            = k ++ UNDERSCORE :: take (30 - length k) t).
  { intros k t Hk. rewrite take_app.
    rewrite (take_ge k) by lia.
    replace (31 - length k) with (S (30 - length k)) by lia.
    reflexivity. }
  rewrite !Hcut in E by assumption.
  now apply key_prefix_eq in E.
Qed.

(** X11.  The sheets of two queries never get the same name: for marker numbers
    of up to 29 digits, whose keys leave room for the underscore within the
    31 characters, two sheet names are equal only when the numbers of the
    keys are, whatever the labels. *)
Theorem sheet_name_distinct_keys n m l1 l2 :
  length (format_02d n) <= 29 -> length (format_02d m) <= 29 ->
  sheet_name (81%N :: format_02d n) l1 = sheet_name (81%N :: format_02d m) l2 ->
  n = m.
Proof.
  intros Ln Lm E. apply normalized_key_injective.
  apply (sheet_name_distinct _ _ l1 l2); try apply normalized_key_chars;
    simpl; try lia. exact E.
Qed.

(** * Further properties of [extract_setup_and_queries] *)

(** ** Where the markers lie *)

Lemma placed_mono raw ms : forall lo lo',
  lo <= lo' -> placed lo' raw ms -> placed lo raw ms.
Proof.
  destruct ms as [|m rest]; intros lo lo' Hle H; [exact I|].
  destruct H as (H1 & H2). split; [lia|exact H2].
Qed.

Lemma slice_app_here (pre g rest : pystr) :
  slice (pre ++ g ++ rest) (length pre) (length pre + length g) = g.
Proof.
  unfold slice. rewrite drop_app_length.
  replace (length pre + length g - length pre) with (length g) by lia.
  apply take_app_length.
Qed.

Section Placement.
Context {U : UnicodeData}.

(** A match of [q_pat] is a prefix of the text it is tried on, and holds
    the two dashes at least. *)
Lemma q_pat_at_prefix s g1 g0 :
  q_pat_at s = Some (g1, g0) -> exists rest, s = g0 ++ rest /\ g0 <> [].
Proof.
  intros H. unfold q_pat_at in H.
  pose proof (lstrip_by_split is_space s) as E1.
  destruct (lstrip_by is_space s) as [|d1 [|d2 s2]] eqn:L1; try discriminate.
  destruct ((d1 =? DASH)%N && (d2 =? DASH)%N); [|discriminate].
  pose proof (lstrip_by_split is_space s2) as E2.
  destruct (lstrip_by is_space s2) as [|q s4] eqn:L2; [discriminate|].
  destruct (ci_eq 113 q); [|discriminate].
  destruct (nonempty (prefix_by is_digit s4)); [|discriminate].
  injection H as <- <-.
  remember (lstrip_by is_digit s4) as s5 eqn:L5.
  remember (lstrip_by is_space s5) as s6 eqn:L6.
  remember (lstrip_by is_dash s6) as s7 eqn:L7.
  remember (lstrip_by is_space s7) as s8 eqn:L8.
  pose proof (lstrip_by_split is_digit s4) as E4. rewrite <- L5 in E4.
  pose proof (lstrip_by_split is_space s5) as E5. rewrite <- L6 in E5.
  pose proof (lstrip_by_split is_dash s6) as E6. rewrite <- L7 in E6.
  pose proof (lstrip_by_split is_space s7) as E7. rewrite <- L8 in E7.
  pose proof (lstrip_by_split not_lf s8) as E8.
  exists (lstrip_by not_lf s8). split.
  - rewrite <- !app_assoc. simpl. rewrite <- !app_assoc. simpl.
    rewrite <- !app_assoc.
    rewrite E1 at 1. f_equal. do 2 f_equal.
    rewrite E2 at 1. f_equal. f_equal.
    rewrite E4 at 1. f_equal.
    rewrite E5 at 1. f_equal.
    rewrite E6 at 1. f_equal.
    rewrite E7 at 1. f_equal.
    exact E8.
  - destruct (prefix_by is_space s); discriminate.
Qed.

Lemma q_finditer_placed s : forall pre skip bol,
  (bol = true -> pre = [] \/ last pre = Some LF) ->
  placed (length pre + skip) (pre ++ s) (q_finditer (length pre) skip bol s).
Proof.
  induction s as [|c r IH]; intros pre skip bol Hbol; [exact I|].
  assert (Hnext : forall k,
            placed (length pre + 1 + k) (pre ++ c :: r)
                   (q_finditer (S (length pre)) k (c =? LF)%N r)).
  { intros k. specialize (IH (pre ++ [c]) k (c =? LF)%N).
    rewrite length_app, <- app_assoc in IH. simpl in IH.
    replace (length pre + 1) with (S (length pre)) in * by lia.
    apply IH. intros Hc. right. apply N.eqb_eq in Hc. subst c.
    apply last_snoc. }
  simpl. destruct skip as [|k].
  - destruct (if bol then q_pat_at (c :: r) else None) as [[g1 g0]|] eqn:E.
    + destruct bol; [|discriminate].
      destruct (q_pat_at_prefix _ _ _ E) as (rest & Es & Hne).
      cbn [placed start_pos label_line]. split; [lia|]. split; [exact Hne|].
      split; [|split].
      * rewrite Es. apply slice_app_here.
      * destruct (Hbol eq_refl) as [->|Hl]; [now left|right].
        apply last_Some in Hl as [pre' ->].
        rewrite length_app. simpl.
        replace (length pre' + 1 - 1) with (length pre') by lia.
        rewrite <- app_assoc. simpl.
        now rewrite list_lookup_middle.
      * destruct g0 as [|g g0']; [contradiction|]. simpl length.
        replace (length pre + S (length g0'))
          with (length pre + 1 + (S (length g0') - 1)) by lia.
        apply Hnext.
    + apply (placed_mono _ _ _ (length pre + 1 + 0)); [lia|apply Hnext].
  - replace (length pre + S k) with (length pre + 1 + k) by lia.
    apply Hnext.
Qed.

(** The markers of a text lie in it one behind the other, each at the
    start of a line. *)
Lemma q_positions_placed raw : placed 0 raw (q_positions raw).
Proof.
  apply (q_finditer_placed raw [] 0 true). intros _. now left.
Qed.

End Placement.

Lemma slice_bound (raw l : pystr) a :
  slice raw a (a + length l) = l -> l <> [] -> a + length l <= length raw.
Proof.
  unfold slice. intros E Hne.
  replace (a + length l - a) with (length l) in E by lia.
  apply (f_equal length) in E. rewrite length_take, length_drop in E.
  destruct l; [contradiction|]. cbn [length] in *. lia.
Qed.

Lemma placed_bounds raw ms : forall lo,
  placed lo raw ms ->
  Forall (fun m => lo <= start_pos m /\
                   start_pos m + length (label_line m) <= length raw) ms.
Proof.
  induction ms as [|m rest IH]; intros lo H; [constructor|].
  destruct H as (H1 & H2 & H3 & _ & H5). constructor.
  - split; [exact H1|now apply slice_bound].
  - apply (Forall_impl _ _ _ (IH _ H5)). intros m' [Ha Hb]. split; lia.
Qed.

Lemma placed_suffix raw ms1 : forall lo m ms2,
  placed lo raw (ms1 ++ m :: ms2) -> exists lo', placed lo' raw (m :: ms2).
Proof.
  induction ms1 as [|m1 ms1 IH]; intros lo m ms2 H; [now exists lo|].
  destruct H as (_ & _ & _ & _ & H). now apply (IH _ _ _ H).
Qed.

Lemma slice_to_end (raw : pystr) a : slice raw a (length raw) = drop a raw.
Proof.
  unfold slice. apply take_ge. rewrite length_drop. lia.
Qed.

Lemma slice_drop (raw : pystr) a b :
  a <= b -> slice raw a b ++ drop b raw = drop a raw.
Proof.
  intros H. unfold slice.
  replace (drop b raw) with (drop (b - a) (drop a raw)).
  - apply take_drop.
  - rewrite drop_drop. f_equal. lia.
Qed.

Lemma placed_concat raw rest : forall lo m,
  placed lo raw (m :: rest) ->
  concat (blocks raw (m :: rest)) = drop (start_pos m) raw.
Proof.
  induction rest as [|m' rest IH]; intros lo m H.
  - change (concat (blocks raw [m]))
      with (slice raw (start_pos m) (length raw) ++ []).
    now rewrite app_nil_r, slice_to_end.
  - destruct H as (_ & _ & _ & _ & H).
    change (concat (blocks raw (m :: m' :: rest)))
      with (slice raw (start_pos m) (start_pos m')
            ++ concat (blocks raw (m' :: rest))).
    rewrite (IH _ _ H). apply slice_drop.
    destruct H as (H & _). lia.
Qed.

Lemma block_of_label raw m rest lo :
  placed lo raw (m :: rest) ->
  exists tail, block_of raw m rest = label_line m ++ tail.
Proof.
  intros H.
  assert (He : start_pos m + length (label_line m)
               <= match rest with
                  | m' :: _ => start_pos m'
                  | [] => length raw
                  end).
  { destruct rest as [|m' rest'].
    - destruct H as (_ & H2 & H3 & _). now apply slice_bound.
    - destruct H as (_ & _ & _ & _ & (H & _)). exact H. }
  destruct H as (_ & _ & H3 & _). unfold block_of.
  set (e := match rest with m' :: _ => start_pos m' | [] => length raw end) in *.
  exists (drop (length (label_line m)) (slice raw (start_pos m) e)).
  rewrite <- (take_drop (length (label_line m)) (slice raw (start_pos m) e)) at 1.
  f_equal. rewrite <- H3 at 2. unfold slice. rewrite take_take. f_equal. lia.
Qed.

Section Placement_Claims.
Context {U : UnicodeData}.

(** X12.  Every marker that [q_pat] finds is where [q_positions] says: its line
    is the text of the input at its offset, the offset is the start of the
    text or stands right behind a line feed, and the markers behind it
    start behind its line, so the lines of two markers never overlap. *)
Theorem markers_in_place raw ms1 m ms2 :
  q_positions raw = ms1 ++ m :: ms2 ->
  slice raw (start_pos m) (start_pos m + length (label_line m))
    = label_line m /\
  (start_pos m = 0 \/ raw !! (start_pos m - 1) = Some LF) /\
  start_pos m + length (label_line m) <= length raw /\
  Forall (fun m' => start_pos m + length (label_line m) <= start_pos m') ms2.
Proof.
  intros E. pose proof (q_positions_placed raw) as H. rewrite E in H.
  apply placed_suffix in H as [lo (H1 & H2 & H3 & H4 & H5)].
  split; [exact H3|]. split; [exact H4|]. split; [now apply slice_bound|].
  apply (Forall_impl _ _ _ (placed_bounds _ _ _ H5)). now intros m' [Ha _].
Qed.

(** X13.  The blocks of the markers tile the text from the first marker to its
    end: put one behind the other they give that text back, so every
    character from the first marker on is in one block and in no other.
    Each block starts with the line of its marker.  What stands before the
    first marker is in no block. *)
Theorem blocks_tile_text raw :
  (forall m rest,
     q_positions raw = m :: rest ->
     concat (blocks raw (m :: rest)) = drop (start_pos m) raw)
  /\ (forall ms1 m ms2,
        q_positions raw = ms1 ++ m :: ms2 ->
        exists tail, block_of raw m ms2 = label_line m ++ tail).
Proof.
  pose proof (q_positions_placed raw) as H. split.
  - intros m rest E. rewrite E in H. now apply (placed_concat raw rest 0).
  - intros ms1 m ms2 E. rewrite E in H.
    apply placed_suffix in H as [lo H]. now apply (block_of_label _ _ _ lo).
Qed.

End Placement_Claims.

(** ** How many entries, and what their labels are *)

Lemma store_size l : forall queries : gmap pystr entry,
  size (fold_left store l queries) <= size queries + length l.
Proof.
  induction l as [|[k e] l IH]; intros queries; [simpl; lia|].
  simpl. specialize (IH (store queries (k, e))).
  assert (size (store queries (k, e)) <= S (size queries)).
  { unfold store. simpl. rewrite map_size_insert.
    destruct (queries !! k); simpl; lia. }
  lia.
Qed.




Section Entry_Props.
Context {U : UnicodeData}.

Lemma q_pat_at_dashes s g :
  q_pat_at s = Some g -> contains [DASH; DASH] s = true.
Proof.
  unfold q_pat_at. pose proof (lstrip_by_split is_space s) as E.
  destruct (lstrip_by is_space s) as [|d1 [|d2 s2]]; try discriminate.
  destruct (N.eqb_spec d1 DASH) as [->|]; [|discriminate].
  destruct (N.eqb_spec d2 DASH) as [->|]; [|discriminate].
  intros _. rewrite E. apply (contains_app [DASH; DASH]).
Qed.

Lemma q_finditer_no_dashes s : forall pos skip bol,
  contains [DASH; DASH] s = false -> q_finditer pos skip bol s = [].
Proof.
  induction s as [|c r IH]; intros pos skip bol H; [reflexivity|].
  pose proof H as H'. apply contains_cons_false in H' as [_ Hr].
  simpl. destruct skip as [|k]; [|now apply IH].
  destruct (if bol then q_pat_at (c :: r) else None) as [[g1 g0]|] eqn:E;
    [|now apply IH].
  destruct bol; [|discriminate]. apply q_pat_at_dashes in E. congruence.
Qed.



(** X14.  Whenever the extractor returns, the dictionary has one entry per
    marker at most.  On a text with no two dashes in a row the extractor
    does return, with all the statements of the splitter cut at the phase
    marker as setup and with an empty dictionary. *)
Theorem entries_bounded_by_markers raw :
  (forall setup queries,
     extract_setup_and_queries raw = Ok (setup, queries) ->
     size queries <= length (q_positions raw))
  /\ (contains [DASH; DASH] raw = false ->
      extract_setup_and_queries raw
      = Ok (setup_statements (split_mysql_statements raw), ∅)).
Proof.
  split.
  - intros setup queries H. apply extract_Ok in H as (_ & _ & ->).
    etransitivity; [apply store_size|]. rewrite map_size_empty. simpl.
    generalize (q_positions raw). intros ms.
    induction ms as [|m rest IH]; [reflexivity|]. simpl.
    destruct (search_query _); [|lia].
    destruct (query_entry m _); simpl; lia.
  - intros H. rewrite extract_spec. unfold q_positions.
    now rewrite q_finditer_no_dashes.
Qed.


End Entry_Props.

(** ** Where the stored statement comes from *)

Section Piece_Props.
Context {U : UnicodeData}.

(** X16.  Whenever the extractor returns, every statement stored in the
    dictionary is a piece of the text taken from the block of one marker,
    which starts at the marker and ends where the next marker starts, and
    in the block the statement is followed at once by a terminator.  The
    statement is either the keyword SELECT and a text with no terminator,
    or the keyword WITH, a text that is not empty, the keyword SELECT and
    a text with no terminator, where the SELECT is the first one behind
    the WITH that has a terminator somewhere behind it.  No statement runs
    past the first terminator behind that SELECT, nor into the block of
    the next marker. *)
Theorem sql_is_piece_of_block raw setup queries :
  extract_setup_and_queries raw = Ok (setup, queries) ->
  map_Forall (fun _ e =>
    exists ms1 m ms2 pre post,
      q_positions raw = ms1 ++ m :: ms2 /\
      block_of raw m ms2 = pre ++ sql e ++ SEMI :: post /\
      ((exists kw body,
          sql e = kw ++ body /\
          ci_match (str "select") kw /\ ~ In SEMI body) \/
       (exists w mid sel body,
          sql e = w ++ mid ++ sel ++ body /\
          ci_match (str "with") w /\ mid <> [] /\
          ci_match (str "select") sel /\ ~ In SEMI body /\
          (forall a b, mid = a ++ b -> a <> [] -> b <> [] ->
             select_tail (b ++ sel ++ body ++ SEMI :: post) = None))))
    queries.
Proof.
  intros H. apply extract_Ok in H as (Hc & _ & ->).
  apply (store_forall (fun _ e =>
    exists ms1 m ms2 pre post,
      q_positions raw = ms1 ++ m :: ms2 /\
      block_of raw m ms2 = pre ++ sql e ++ SEMI :: post /\
      ((exists kw body,
          sql e = kw ++ body /\
          ci_match (str "select") kw /\ ~ In SEMI body) \/
       (exists w mid sel body,
          sql e = w ++ mid ++ sel ++ body /\
          ci_match (str "with") w /\ mid <> [] /\
          ci_match (str "select") sel /\ ~ In SEMI body /\
          (forall a b, mid = a ++ b -> a <> [] -> b <> [] ->
             select_tail (b ++ sel ++ body ++ SEMI :: post) = None)))));
    [apply map_Forall_empty|].
  apply Forall_forall. intros [k e] Hin. apply list_elem_of_In in Hin.
  pose proof (q_positions_wf raw) as Hwf.
  apply (entries_elem raw _ k e Hwf Hc) in Hin
    as (ms1 & m & ms2 & g0 & E & Hs & Hq).
  rewrite Forall_forall in Hwf. rewrite E in Hc. apply converts_suffix in Hc.
  destruct (query_entry_ok m g0) as (n & _ & Hq').
  { apply Hwf, list_elem_of_In. rewrite E. apply in_or_app. right. now left. }
  { exact (converts_head _ _ _ _ Hc Hs). }
  rewrite Hq' in Hq. injection Hq as _ <-. cbn [sql snd].
  destruct (search_query_parts _ _ Hs) as (pre & post & Hb & _ & _ & H).
  exists ms1, m, ms2, pre, post. split; [exact E|].
  destruct H as [(kw & body & -> & Hkw & Hno & _)
                |(w & mid & sel & body & -> & Hw & Hmid & Hsel & Hno & _ & _
                  & Hmin)].
  - destruct (ci_match_cons _ _ _ Hkw) as (c & t & Ekw & Hc').
    pose proof (sql_of_match [] kw body c t Ekw (or_introl Hc') Hkw Hno)
      as Esql.
    cbn [app] in Esql. rewrite Esql.
    split; [rewrite Hb; simpl; now rewrite <- !app_assoc|].
    left. now exists kw, body.
  - destruct (ci_match_cons _ _ _ Hw) as (c & t & Ew & Hc').
    assert (Esql : rstrip_by (fun c => (c =? SEMI)%N)
                     (strip (w ++ mid ++ sel ++ body ++ [SEMI]))
                   = w ++ mid ++ sel ++ body).
    { rewrite !(app_assoc w mid).
      apply (sql_of_match (w ++ mid) sel body c (t ++ mid ++ sel)); auto.
      rewrite Ew. simpl. now rewrite <- app_assoc. }
    rewrite Esql.
    split; [rewrite Hb; now rewrite <- !app_assoc|].
    right. now exists w, mid, sel, body.
Qed.

End Piece_Props.

(** * The claims at concrete texts

    The texts below are ASCII, on which the classes do not consult the
    Unicode database: the statements are read with the database cut down to
    Basic Latin. *)

#[local] Existing Instance basic_latin.

(** C1, amended, at [SELECT ';' ; SELECT 1;]: the literal [';'] is met outside every
    string and stands whole in a statement of the result. *)
Lemma split_quote_safety_witness :
  outside (scan scan_init (str "SELECT ")) /\
  exists s l1 l2,
    In s (split_mysql_statements (str "SELECT ';' ; SELECT 1;")) /\
    s = l1 ++ (SQUOTE :: [SEMI] ++ [SQUOTE]) ++ l2.
Proof.
  assert (Hout : outside (scan scan_init (str "SELECT ")))
    by (vm_compute; repeat split).
  split; [exact Hout|].
  destruct (proj1 (proj2 (@split_quote_safety basic_latin))
              (str "SELECT ';' ; SELECT 1;") (str "SELECT ") SQUOTE [SEMI]
              (str " ; SELECT 1;")) as (_ & _ & _ & H).
  - now left.
  - vm_compute. reflexivity.
  - exact Hout.
  - intros [H|[]]; discriminate.
  - intros [H|[]]; discriminate.
  - exact H.
Defined.

(** C1 as the claim words it, for every text given to the splitter, fails
    at the two lines [SELECT 'a--b';] and [SELECT ';' ;].  The literal [';']
    of the second line starts outside every string of the text, but the
    comment filter, which looks at no quotes, cuts the first line at the
    two dashes inside its string; the scan then takes the quote of [';'] for
    the end of a string, and the terminator behind it ends a statement.  No
    statement of the result holds the literal. *)
Lemma split_quote_safety_counterexample :
  str "SELECT 'a--b';" ++ [LF] ++ str "SELECT ';' ;"
  = (str "SELECT 'a--b';" ++ [LF] ++ str "SELECT ")
    ++ SQUOTE :: [SEMI] ++ SQUOTE :: str " ;" /\
  outside (scan scan_init (str "SELECT 'a--b';" ++ [LF] ++ str "SELECT ")) /\
  split_mysql_statements (str "SELECT 'a--b';" ++ [LF] ++ str "SELECT ';' ;")
  = [str "SELECT 'a" ++ [LF] ++ str "SELECT '"; str "' ;"] /\
  existsb (contains [SQUOTE; SEMI; SQUOTE])
    (split_mysql_statements
       (str "SELECT 'a--b';" ++ [LF] ++ str "SELECT ';' ;")) = false.
Proof. repeat split; vm_compute; reflexivity. Qed.

(** C6 at [A /* x; y */ B;]. *)
Lemma block_comment_removal_witness :
  sub_block_comments (str "A /* x; y */ B;") = str "A   B;" /\
  filter_lines false [str "A /* x; y */ B;"] = [str "A   B;"].
Proof.
  destruct (proj1 (@block_comment_removal basic_latin)
              (str "A ") (str " x; y ") (str " B;") []) as [H1 H2].
  - vm_compute. reflexivity.
  - vm_compute. reflexivity.
  - vm_compute. intros H. repeat destruct H as [H|H]; try discriminate H.
    exact H.
  - split; [exact H1|exact H2].
Defined.

(** C5, amended, at the marker line [-- Q1 - Find something]. *)
Lemma preserved_line_inert_witness :
  filter_lines false [str "-- Q1 - Find something"]
    = [str "-- Q1 - Find something"] /\
  stmts (scan scan_init (str "-- Q1 - Find something")) = [] /\
  buff (scan scan_init (str "-- Q1 - Find something"))
    = str "-- Q1 - Find something".
Proof.
  destruct (@preserved_line_inert basic_latin
              (str "-- Q1 - Find something") []) as [H1 H2].
  - vm_compute. reflexivity.
  - vm_compute. reflexivity.
  - split; [exact H1|]. apply (H2 ltac:(vm_compute; intros H;
      repeat destruct H as [H|H]; try discriminate H; exact H) scan_init).
Defined.

(** C5 as the claim words it fails at the marker line [-- Q1 a;b]: the line
    is kept under the preservation rule, it holds a terminator, and the
    scan cuts a statement inside it. *)
Lemma preserved_line_counterexample :
  match_qmarker (str "-- Q1 a;b") = true /\
  In SEMI (str "-- Q1 a;b") /\
  filter_lines false [str "-- Q1 a;b"] = [str "-- Q1 a;b"] /\
  stmts (scan scan_init (str "-- Q1 a;b")) = [str "-- Q1 a"] /\
  split_mysql_statements (str "-- Q1 a;b" ++ [LF] ++ str "SELECT 1;")
  = [str "-- Q1 a"; str "b" ++ [LF] ++ str "SELECT 1"].
Proof.
  repeat split; try (vm_compute; reflexivity).
  vm_compute. do 7 right. now left.
Qed.

(** C4, amended, at [SELECT 1; SELECT 2] and at a marker with its query. *)
Lemma statements_trimmed_witness :
  (In (str "SELECT 1") (split_mysql_statements (str "SELECT 1; SELECT 2")) /\
   str "SELECT 1" <> [] /\ strip (str "SELECT 1") = str "SELECT 1") /\
  (extract_setup_and_queries (str "-- Q1 - t" ++ [LF] ++ str "SELECT 1;")
   = Ok ([str "-- Q1 - t" ++ [LF] ++ str "SELECT 1"],
         {[ str "Q01" := {| label := str "Q1 - t"; sql := str "SELECT 1" |} ]}) /\
   map_Forall (fun _ e =>
                 sql e <> [] /\ lstrip_by is_space (sql e) = sql e /\
                 last (sql e) <> Some SEMI)
     ({[ str "Q01" := {| label := str "Q1 - t"; sql := str "SELECT 1" |} ]}
        : gmap pystr entry)).
Proof.
  split.
  - assert (Hin : In (str "SELECT 1")
                     (split_mysql_statements (str "SELECT 1; SELECT 2")))
      by (vm_compute; now left).
    split; [exact Hin|].
    destruct (proj1 (@statements_trimmed basic_latin
                       (str "SELECT 1; SELECT 2"))
                (str "SELECT 1") Hin) as (H1 & H2 & _).
    split; [exact H1|exact H2].
  - assert (Hex : extract_setup_and_queries
                    (str "-- Q1 - t" ++ [LF] ++ str "SELECT 1;")
                  = Ok ([str "-- Q1 - t" ++ [LF] ++ str "SELECT 1"],
                        {[ str "Q01" := {| label := str "Q1 - t";
                                           sql := str "SELECT 1" |} ]}))
      by (vm_compute; reflexivity).
    split; [exact Hex|].
    exact (proj2 (proj2 (@statements_trimmed basic_latin _) _ _ Hex)).
Defined.

(** C4 as the claim words it fails at [SELECT ';]: the quote is never
    closed, the terminator stays in the buffer, and the one statement
    returned ends with it. *)
Lemma statements_trimmed_counterexample :
  split_mysql_statements (str "SELECT ';") = [str "SELECT ';"] /\
  last (str "SELECT ';") = Some SEMI.
Proof. split; vm_compute; reflexivity. Qed.

(** The [sql] of an entry keeps the white space that stood before the
    terminator: [strip] runs before [rstrip(';')]. *)
Example sql_trailing_space :
  extract_setup_and_queries (str "-- Q1 - t" ++ [LF] ++ str "SELECT 1 ;")
  = Ok ([str "-- Q1 - t" ++ [LF] ++ str "SELECT 1"],
        {[ str "Q01" := {| label := str "Q1 - t"; sql := str "SELECT 1 " |} ]}).
Proof. vm_compute. reflexivity. Qed.

(** C3 as the claim words it fails at [SELECT 1; SELECT 'Segment1';
    SELECT 2;]: no statement holds the word Segment followed by white space
    and the digit 1, so all three statements would be setup, and the
    extractor stops before the second, whose [Segment1] has no white space
    in it. *)
Lemma setup_partition_counterexample :
  split_mysql_statements (str "SELECT 1; SELECT 'Segment1'; SELECT 2;")
  = [str "SELECT 1"; str "SELECT 'Segment1'"; str "SELECT 2"] /\
  existsb spec_phase_token
    [str "SELECT 1"; str "SELECT 'Segment1'"; str "SELECT 2"] = false /\
  extract_setup_and_queries (str "SELECT 1; SELECT 'Segment1'; SELECT 2;")
  = Ok ([str "SELECT 1"], ∅).
Proof. repeat split; vm_compute; reflexivity. Qed.

(** C3, amended, at [A; B; -- Segment 1], [C; D;]: the extractor returns,
    and its setup statements are those of the partition. *)
Lemma setup_partition_witness :
  extract_setup_and_queries
    (str "A; B; -- Segment 1" ++ [LF] ++ str "C; D;")
  = Ok ([str "A"; str "B"], ∅) /\
  [str "A"; str "B"]
  = setup_statements
      (split_mysql_statements
         (str "A; B; -- Segment 1" ++ [LF] ++ str "C; D;")).
Proof.
  assert (Hex : extract_setup_and_queries
                  (str "A; B; -- Segment 1" ++ [LF] ++ str "C; D;")
                = Ok ([str "A"; str "B"], ∅))
    by (vm_compute; reflexivity).
  split; [exact Hex|].
  destruct (proj1 (@setup_partition basic_latin)
              (str "A; B; -- Segment 1" ++ [LF] ++ str "C; D;"))
    as (rest & _ & _ & _ & Hret).
  exact (Hret _ _ Hex).
Defined.



(** C7 at a marker with no query, and at the keys of a text in which only
    Q2 has one. *)
Lemma marker_without_query_skipped_witness :
  (search_query (str "-- Q1 - nothing here") = None /\
   collect_queries (str "-- Q1 - nothing here")
     [ {| qkey := str "Q1"; start_pos := 0;
          label_line := str "-- Q1 - nothing here" |} ] ∅
   = Ok ∅) /\
  (str "Q01" ∈ dom ({[ str "Q02" := {| label := str "Q2 - two";
                                        sql := str "SELECT 2" |} ]}
                      : gmap pystr entry) <->
   exists ms1 m ms2 g0 n,
     q_positions (str "-- Q1 - nothing here" ++ [LF] ++ str "-- Q2 - two"
                  ++ [LF] ++ str "SELECT 2;") = ms1 ++ m :: ms2 /\
     search_query
       (block_of (str "-- Q1 - nothing here" ++ [LF] ++ str "-- Q2 - two"
                  ++ [LF] ++ str "SELECT 2;") m ms2) = Some g0 /\
     py_int (List.filter is_digit (qkey m)) = Ok n /\
     str "Q01" = 81%N :: format_02d n).
Proof.
  split.
  - split; [vm_compute; reflexivity|].
    rewrite (proj1 (@marker_without_query_skipped basic_latin)).
    + reflexivity.
    + vm_compute. reflexivity.
  - apply (proj1 (proj2 (@marker_without_query_skipped basic_latin))
             (str "-- Q1 - nothing here" ++ [LF] ++ str "-- Q2 - two"
              ++ [LF] ++ str "SELECT 2;")
             [str "-- Q1 - nothing here" ++ [LF] ++ str "-- Q2 - two" ++ [LF]
              ++ str "SELECT 2"]).
    vm_compute. reflexivity.
Defined.


(** C9, amended, at [WITH t AS (SELECT 1) SELECT * FROM t;]. *)
Lemma with_clause_capture_witness :
  exists pre w mid sel body post,
    str "-- Q1 - cte" ++ [LF] ++ str "WITH t AS (SELECT 1) SELECT * FROM t;"
    = pre ++ str "WITH t AS (SELECT 1) SELECT * FROM t;" ++ post /\
    (forall a b, pre = a ++ b -> b <> [] ->
       query_at (last a)
         (b ++ str "WITH t AS (SELECT 1) SELECT * FROM t;" ++ post) = None) /\
    str "WITH t AS (SELECT 1) SELECT * FROM t;"
    = w ++ mid ++ sel ++ body ++ [SEMI] /\
    ci_match (str "with") w /\ mid <> [] /\
    ci_match (str "select") sel /\ ~ In SEMI body /\
    word_boundary (last w) (head mid) = true /\
    word_boundary (last sel) (head (body ++ [SEMI])) = true /\
    (forall a b, mid = a ++ b -> a <> [] -> b <> [] ->
       select_tail (b ++ sel ++ body ++ SEMI :: post) = None) /\
    rstrip_by (fun c => (c =? SEMI)%N)
      (strip (str "WITH t AS (SELECT 1) SELECT * FROM t;"))
    = w ++ mid ++ sel ++ body.
Proof.
  apply (proj1 (@with_clause_capture basic_latin)
           (str "-- Q1 - cte" ++ [LF]
            ++ str "WITH t AS (SELECT 1) SELECT * FROM t;")).
  - vm_compute. reflexivity.
  - vm_compute. eexists. reflexivity.
Defined.

(** C9 as the claim words it fails at [WITH cte AS (VALUES (1));],
    [SELECT 2;]: the match starts at the WITH and does not end at the next
    terminator, the one behind [(VALUES (1))], but at the one behind the
    SELECT of the next line, and the sql stored holds a terminator. *)
Lemma with_clause_counterexample :
  search_query
    (str "-- Q1 - x" ++ [LF] ++ str "WITH cte AS (VALUES (1));" ++ [LF]
     ++ str "SELECT 2;")
  = Some (str "WITH cte AS (VALUES (1));" ++ [LF] ++ str "SELECT 2;") /\
  extract_setup_and_queries
    (str "-- Q1 - x" ++ [LF] ++ str "WITH cte AS (VALUES (1));" ++ [LF]
     ++ str "SELECT 2;")
  = Ok ([str "-- Q1 - x" ++ [LF] ++ str "WITH cte AS (VALUES (1))";
         str "SELECT 2"],
        {[ str "Q01" :=
             {| label := str "Q1 - x";
                sql := str "WITH cte AS (VALUES (1));" ++ [LF]
                       ++ str "SELECT 2" |} ]}) /\
  str "WITH cte AS (VALUES (1));" ++ [LF] ++ str "SELECT 2"
  <> str "WITH cte AS (VALUES (1))".
Proof. repeat split; try (vm_compute; reflexivity). discriminate. Qed.

(** * The further properties at concrete texts *)

Ltac absent := vm_compute; intros H; repeat destruct H as [H|H];
  try discriminate H; exact H.

(** A text with a line comment and no terminator is one statement. *)
Lemma split_no_terminator_witness :
  ~ In SEMI (str "SELECT 1 -- note") /\
  split_mysql_statements (str "SELECT 1 -- note") = [str "SELECT 1"].
Proof.
  assert (Hno : ~ In SEMI (str "SELECT 1 -- note")) by absent.
  split; [exact Hno|].
  rewrite (split_no_terminator (str "SELECT 1 -- note") Hno).
  vm_compute. reflexivity.
Defined.

(** The terminator behind [SELECT ';'] stands outside the strings and cuts
    the text there. *)
Lemma split_text_at_terminator_witness :
  quotes_closed (scan scan_init (str "SELECT ';'")) = true /\
  split_text (str "SELECT ';'" ++ SEMI :: str " SELECT 2")
  = [str "SELECT ';'"; str "SELECT 2"].
Proof.
  assert (Hq : quotes_closed (scan scan_init (str "SELECT ';'")) = true)
    by (vm_compute; reflexivity).
  split; [exact Hq|].
  rewrite (split_text_at_terminator (str "SELECT ';'") (str " SELECT 2") Hq).
  vm_compute. reflexivity.
Defined.

(** A block comment of three lines: [A] before the opener and [B;] behind
    the closer go with it. *)
Lemma block_comment_lines_dropped_witness :
  filter_lines false [str "A /* x"; str "y;"; str "z */ B;"; str "C;"]
  = [str "C;"] /\
  filter_lines false [str "A /* x"; str "y;"] = [].
Proof.
  destruct (block_comment_lines_dropped (str "A /* x") [str "y;"])
    as [H1 H2].
  - vm_compute. reflexivity.
  - vm_compute. reflexivity.
  - repeat constructor.
  - split; [|exact H2].
    etransitivity;
      [exact (H1 (str "z */ B;") [str "C;"] ltac:(vm_compute; reflexivity))|].
    vm_compute. reflexivity.
Defined.

(** The line [SELECT 1; -- note] is cut at its two dashes. *)
Lemma line_comment_cut_witness :
  filter_lines false [str "SELECT 1; -- note"] = [str "SELECT 1; "].
Proof.
  apply (proj1 (line_comment_cut []) (str "SELECT 1; ") (str " note")).
  - vm_compute. reflexivity.
  - vm_compute. reflexivity.
  - vm_compute. reflexivity.
  - absent.
Defined.

(** Two statements on two lines, with either line end. *)
Lemma split_crlf_witness :
  ~ In CR (str "SELECT 1;" ++ LF :: str "SELECT 2;") /\
  split_mysql_statements (str "SELECT 1;" ++ CR :: LF :: str "SELECT 2;")
  = [str "SELECT 1"; str "SELECT 2"].
Proof.
  assert (Hno : ~ In CR (str "SELECT 1;" ++ LF :: str "SELECT 2;")) by absent.
  split; [exact Hno|].
  change (str "SELECT 1;" ++ CR :: LF :: str "SELECT 2;")
    with (to_crlf (str "SELECT 1;" ++ LF :: str "SELECT 2;")).
  rewrite (split_crlf _ Hno). vm_compute. reflexivity.
Defined.

(** Q07 comes before Q12. *)
Lemma key_order_witness : str_ltb (str "Q07") (str "Q12") = true.
Proof.
  change (str "Q07") with (81%N :: format_02d 7).
  change (str "Q12") with (81%N :: format_02d 12).
  rewrite (proj1 key_order_is_numeric_below_100 7%N 12%N);
    [reflexivity|lia|lia].
Defined.

(** Two labels of one key that become the same sheet name. *)
Lemma sheet_name_distinct_keys_witness :
  sheet_name (str "Q07") (str "a:b") = sheet_name (str "Q07") (str "a b") /\
  7%N = 7%N.
Proof.
  assert (H : sheet_name (81%N :: format_02d 7) (str "a:b")
              = sheet_name (81%N :: format_02d 7) (str "a b"))
    by (vm_compute; reflexivity).
  split; [exact H|].
  apply (sheet_name_distinct_keys 7 7 (str "a:b") (str "a b"));
    [vm_compute; lia|vm_compute; lia|exact H].
Defined.

(** A text with a statement before its first marker and two markers: the
    second marker stands at offset 28, right behind a line feed. *)
Lemma markers_in_place_witness :
  let raw := str "USE imdb;" ++ LF :: str "-- Q1 a" ++ LF :: str "SELECT 1;"
             ++ LF :: str "-- Q2 b" ++ LF :: str "SELECT 2;" in
  let m1 := {| qkey := str "Q1"; start_pos := 10;
               label_line := str "-- Q1 a" |} in
  let m2 := {| qkey := str "Q2"; start_pos := 28;
               label_line := str "-- Q2 b" |} in
  q_positions raw = [m1; m2] /\
  slice raw 28 35 = str "-- Q2 b" /\ raw !! 27 = Some LF /\
  slice raw 10 17 = str "-- Q1 a" /\ Forall (fun m' => 17 <= start_pos m') [m2].
Proof.
  intros raw m1 m2.
  assert (Hq : q_positions raw = [m1; m2]) by (vm_compute; reflexivity).
  split; [exact Hq|].
  destruct (markers_in_place raw [m1] m2 [] Hq) as (H1 & H2 & _).
  destruct (markers_in_place raw [] m1 [m2] Hq) as (H3 & _ & _ & H4).
  split; [exact H1|]. split; [|split; [exact H3|exact H4]].
  destruct H2 as [H2|H2]; [discriminate H2|exact H2].
Defined.

(** In the same text the two blocks, one behind the other, are the text
    from offset 10 on, and the block of the first marker starts with its
    line. *)
Lemma blocks_tile_text_witness :
  let raw := str "USE imdb;" ++ LF :: str "-- Q1 a" ++ LF :: str "SELECT 1;"
             ++ LF :: str "-- Q2 b" ++ LF :: str "SELECT 2;" in
  let m1 := {| qkey := str "Q1"; start_pos := 10;
               label_line := str "-- Q1 a" |} in
  let m2 := {| qkey := str "Q2"; start_pos := 28;
               label_line := str "-- Q2 b" |} in
  concat (blocks raw [m1; m2]) = drop 10 raw /\
  exists tail, block_of raw m1 [m2] = str "-- Q1 a" ++ tail.
Proof.
  intros raw m1 m2.
  assert (Hq : q_positions raw = [m1; m2]) by (vm_compute; reflexivity).
  destruct (blocks_tile_text raw) as [H1 H2].
  split; [exact (H1 m1 [m2] Hq)|exact (H2 [] m1 [m2] Hq)].
Defined.

(** The literal with an escaped quote, a terminator and an escaped
    backslash in it, scanned from the start: no statement is cut. *)
Lemma backslash_escapes_witness :
  let lit := [SQUOTE; 97%N; BACKSLASH; SQUOTE; SEMI; BACKSLASH; BACKSLASH;
              SQUOTE] in
  outside scan_init /\
  outside (scan scan_init lit) /\
  stmts (scan scan_init lit) = [] /\ buff (scan scan_init lit) = lit.
Proof.
  intros lit.
  assert (Hout : outside scan_init) by (repeat split).
  split; [exact Hout|].
  apply (proj1 (backslash_escapes scan_init Hout) SQUOTE
           [Plain 97%N; Escaped SQUOTE; Plain SEMI; Escaped BACKSLASH]).
  - now left.
  - repeat constructor; discriminate.
Defined.

(** A marker with no query and a marker with one: one entry for two
    markers. *)
Lemma entries_bounded_by_markers_witness :
  size ({[ str "Q02" := {| label := str "Q2 - two"; sql := str "SELECT 2" |} ]}
          : gmap pystr entry)
  <= length (q_positions (str "-- Q1 - nothing here" ++ [LF]
                          ++ str "-- Q2 - two" ++ [LF] ++ str "SELECT 2;")).
Proof.
  apply (proj1 (entries_bounded_by_markers
                  (str "-- Q1 - nothing here" ++ [LF] ++ str "-- Q2 - two"
                   ++ [LF] ++ str "SELECT 2;"))
           [str "-- Q1 - nothing here" ++ [LF] ++ str "-- Q2 - two" ++ [LF]
            ++ str "SELECT 2"]).
  vm_compute. reflexivity.
Defined.


(** The statement of the marker Q1 in a text with two markers. *)
Lemma sql_is_piece_of_block_witness :
  extract_setup_and_queries
    (str "-- Q1 - a" ++ [LF] ++ str "SELECT 1; x" ++ [LF] ++ str "-- Q2 - b")
  = Ok ([str "-- Q1 - a" ++ [LF] ++ str "SELECT 1";
         str "x" ++ [LF] ++ str "-- Q2 - b"],
        {[ str "Q01" := {| label := str "Q1 - a"; sql := str "SELECT 1" |} ]}) /\
  map_Forall (fun _ e =>
    exists ms1 m ms2 pre post,
      q_positions (str "-- Q1 - a" ++ [LF] ++ str "SELECT 1; x" ++ [LF]
                   ++ str "-- Q2 - b") = ms1 ++ m :: ms2 /\
      block_of (str "-- Q1 - a" ++ [LF] ++ str "SELECT 1; x" ++ [LF]
                ++ str "-- Q2 - b") m ms2 = pre ++ sql e ++ SEMI :: post /\
      ((exists kw body,
          sql e = kw ++ body /\
          ci_match (str "select") kw /\ ~ In SEMI body) \/
       (exists w mid sel body,
          sql e = w ++ mid ++ sel ++ body /\
          ci_match (str "with") w /\ mid <> [] /\
          ci_match (str "select") sel /\ ~ In SEMI body /\
          (forall a b, mid = a ++ b -> a <> [] -> b <> [] ->
             select_tail (b ++ sel ++ body ++ SEMI :: post) = None))))
    ({[ str "Q01" := {| label := str "Q1 - a"; sql := str "SELECT 1" |} ]}
       : gmap pystr entry).
Proof.
  assert (Hex : extract_setup_and_queries
                  (str "-- Q1 - a" ++ [LF] ++ str "SELECT 1; x" ++ [LF]
                   ++ str "-- Q2 - b")
                = Ok ([str "-- Q1 - a" ++ [LF] ++ str "SELECT 1";
                       str "x" ++ [LF] ++ str "-- Q2 - b"],
                      {[ str "Q01" := {| label := str "Q1 - a";
                                         sql := str "SELECT 1" |} ]}))
    by (vm_compute; reflexivity).
  split; [exact Hex|].
  exact (sql_is_piece_of_block _ _ _ Hex).
Defined.
